(** * Earthquakes globe: longitude normalizer, antimeridian segmenter and
      temporal colour mapper

    A shallow embedding of the three helper functions of [src/utils/globe.ts]
    ([getEarthquakeColorByTime], [normalizeLongitude], [processPlatesData])
    and of the plate-loading step of the [useData] hook ([loadData]), with the
    properties the specification states about them.

    Around them: how a point is drawn ([pointAltitude], [pointRadius],
    [pointColor]), the list shown beside the globe ([filteredData]), the
    reading of the USGS feed ([fetchEarthquakesFromApi]) and the enrichment of
    volcanoes ([enrichVolcanoData]), with properties read off the code. What
    the code gets from outside (the [Date] parsing, the Unicode
    string functions, the answers of the enrichment service) is a parameter
    of the model.

    Numbers.  A finite JavaScript [number] is modelled by the rational it
    denotes ([Q]).  In the two loops of the normalizer, where the magnitude
    of the input decides whether the loop exits, each sum is rounded to the
    nearest double ([Binary64.round64]); a loop that does not exit is a
    result [None] for every number of iterations allowed.  [NaN], the value
    [Date.prototype.getTime] returns for an invalid date, is modelled by
    [None]. *)

From Stdlib Require Import QArith Qround Qabs Qpower ZArith List String Ascii Bool.
From Stdlib Require Import Lia Lqa.
From Stdlib Require Import DecimalString.
From Stdlib Require Import Permutation Sorted.
From Stdlib Require Import DecimalZ DecimalPos.
From Equations Require Import Equations.
Import ListNotations.

Open Scope Q_scope.

(** * Model *)

(** ** Comparisons and rounding on numbers *)

(** [x > y] on finite numbers. *)
Definition Qgtb (x y : Q) : bool := negb (Qle_bool x y).

Lemma Qgtb_true x y : Qgtb x y = true <-> y < x.
Proof.
  unfold Qgtb. rewrite negb_true_iff. split.
  - intros H. apply Qnot_le_lt. intros Hle.
    apply Qle_bool_iff in Hle. congruence.
  - intros H. destruct (Qle_bool x y) eqn:E; [|reflexivity].
    apply Qle_bool_iff in E. exfalso. exact (Qlt_not_le _ _ H E).
Qed.

Lemma Qgtb_false x y : Qgtb x y = false <-> x <= y.
Proof. unfold Qgtb. rewrite negb_false_iff. apply Qle_bool_iff. Qed.

Lemma Qfloor_bounds x : inject_Z (Qfloor x) <= x /\ x < inject_Z (Qfloor x) + 1.
Proof.
  split; [apply Qfloor_le|].
  pose proof (Qlt_floor x) as H. rewrite inject_Z_plus in H. exact H.
Qed.

(** The [inspect] idiom: remember the equation of a scrutinee. *)
Definition inspect {A : Type} (a : A) : {b : A | a = b} := exist _ a eq_refl.

(** ** Rounding to a double *)

(** The result of [+] and [-] on doubles is the exact sum or difference
    rounded to the nearest double, ties to the even significand.  Values
    beyond the largest double do not arise in the code that uses the
    rounding below (both loops of the normalizer move toward zero), so
    overflow is left out. *)
Module Binary64.

(** The binade of a positive number: the integer [e] with
    [2^e <= x < 2^(e+1)]. *)
Definition binade (x : Q) : Z :=
  if Qle_bool 1 x then Z.log2 (Qfloor x) else (- Z.log2_up (Qceiling (/ x)))%Z.

(** The exponent of the spacing of the doubles around [x]: 52 binary digits
    below the binade, and never below the spacing of the subnormals. *)
Definition ulp_exponent (x : Q) : Z := Z.max (binade (Qabs x) - 52) (-1074).

(** The nearest integer, ties to even. *)
Definition nearest_even (q : Q) : Z :=
  let f := Qfloor q in
  match Qcompare (q - inject_Z f) (1 # 2) with
  | Lt => f
  | Gt => (f + 1)%Z
  | Eq => if Z.even f then f else (f + 1)%Z
  end.

(** The double nearest to [x]. *)
Definition round64 (x : Q) : Q :=
  if Qeq_bool x 0 then 0
  else let u := 2 ^ ulp_exponent x in
       Qred (inject_Z (nearest_even (x / u)) * u).

(** The rationals that are doubles. *)
Definition is_double (x : Q) : Prop := round64 x == x.

(** The grid of the binade of 128: the multiples of 2^-45. *)
Definition on_grid45 (x : Q) : Prop :=
  exists k : Z, x == inject_Z k * 2 ^ (-45).

(** Above 180, a multiple of 2^-45; every double is. *)
Definition grid_above (x : Q) : Prop := 180 < x -> on_grid45 x.

End Binary64.

(** ** Longitude normalizer *)

(** A [while] loop runs as long as its test holds, and for some values it
    never exits: the loops take the number of tests they may still make
    ([fuel]) and return [None] when it runs out. *)
Module Normalizer.
Import Binary64.

(** [while (newLon <= -180) newLon += 360;] *)
Fixpoint loop_up (fuel : nat) (newLon : Q) : option Q :=
  match fuel with
  | O => None
  | S fuel' =>
      if Qle_bool newLon (-180)
      then loop_up fuel' (round64 (newLon + 360))
      else Some newLon
  end.

(** [while (newLon > 180) newLon -= 360;] *)
Fixpoint loop_down (fuel : nat) (newLon : Q) : option Q :=
  match fuel with
  | O => None
  | S fuel' =>
      if Qgtb newLon 180
      then loop_down fuel' (round64 (newLon - 360))
      else Some newLon
  end.

Definition normalizeLongitude (fuel : nat) (lon : Q) : option Q :=
  let newLon := lon in
  match loop_up fuel newLon with
  | Some newLon => loop_down fuel newLon
  | None => None
  end.

End Normalizer.

(** ** Antimeridian segmenter *)

Module Segmenter.

(** A coordinate pair [[c0, c1]]: the segmenter only ever reads the first
    component, with [const [lon1] = prevPoint]. *)
Definition Point : Type := (Q * Q)%type.

(** Plate-boundary features as [src/types.ts] declares them
    ([TectonicPlate.features]). *)
Record Properties : Type := { PlateName : string }.

Record Geometry : Type := {
  gtype : string;
  coordinates : list Point
}.

Record Feature : Type := {
  ftype : string;
  properties : Properties;
  geometry : Geometry
}.

(** [{ ...feature, geometry: { ...feature.geometry, coordinates: seg } }]:
    a copy of the feature with a replacement coordinate array. *)
Definition withCoordinates (feature : Feature) (seg : list Point) : Feature :=
  {| ftype := ftype feature;
     properties := properties feature;
     geometry := {| gtype := gtype (geometry feature); coordinates := seg |} |}.

(** The two variables the callbacks of [processPlatesData] assign to: the
    local [currentSegment] and the captured [finalFeatures]. *)
Record SegState : Type := {
  currentSegment : list Point;
  finalFeatures : list Feature
}.

(** [Array.prototype.forEach] with the [(element, index)] callback, threading
    the state the callback updates. *)
Fixpoint forEach_from {A St : Type} (f : St -> A -> nat -> St)
    (l : list A) (index : nat) (st : St) : St :=
  match l with
  | [] => st
  | x :: l' => forEach_from f l' (S index) (f st x index)
  end.

Definition forEach {A St : Type} (f : St -> A -> nat -> St)
    (l : list A) (st : St) : St :=
  forEach_from f l 0%nat st.

(** [if (currentSegment.length > 1) finalFeatures.push(...)] *)
Definition pushIfSegment (feature : Feature) (st : SegState) : list Feature :=
  if (1 <? List.length (currentSegment st))%nat
  then finalFeatures st ++ [withCoordinates feature (currentSegment st)]
  else finalFeatures st.

(** The callback of [coordinates.forEach((point, index) => ...)].  The lookup
    [coordinates[index - 1]] is always in range when [forEach] calls it; the
    [None] branch is there for totality only. *)
Definition visitPoint (feature : Feature) (coordinates : list Point)
    (st : SegState) (point : Point) (index : nat) : SegState :=
  match index with
  | O => {| currentSegment := currentSegment st ++ [point];
            finalFeatures := finalFeatures st |}
  | S index' =>
      match nth_error coordinates index' with
      | None => st
      | Some prevPoint =>
          let lon1 := fst prevPoint in
          let lon2 := fst point in
          if Qgtb (Qabs (lon1 - lon2)) 180
          then {| currentSegment := [point];
                  finalFeatures := pushIfSegment feature st |}
          else {| currentSegment := currentSegment st ++ [point];
                  finalFeatures := finalFeatures st |}
      end
  end.

(** The callback of [features.forEach(feature => ...)], as a function of the
    [finalFeatures] built so far. *)
Definition processFeature (finalFeatures0 : list Feature) (feature : Feature)
    : list Feature :=
  let coordinates := coordinates (geometry feature) in
  let st := forEach (visitPoint feature coordinates) coordinates
              {| currentSegment := []; finalFeatures := finalFeatures0 |} in
  pushIfSegment feature st.

Definition processPlatesData (features : list Feature) : list Feature :=
  fold_left processFeature features [].

(** *** Specification vocabulary *)

(** The segmenter's crossing test between two consecutive points. *)
Definition crossing (p q : Point) : bool := Qgtb (Qabs (fst p - fst q)) 180.

(** No pair of consecutive points differs by more than 180 in the first
    component. *)
Definition no_crossings (cs : list Point) : Prop :=
  forall (i : nat) (p q : Point),
    nth_error cs i = Some p -> nth_error cs (S i) = Some q ->
    Qabs (fst p - fst q) <= 180.

(** The same, by recursion on the list. *)
Fixpoint smooth (cs : list Point) : Prop :=
  match cs with
  | p :: (q :: _) as tl => Qabs (fst p - fst q) <= 180 /\ smooth tl
  | _ => True
  end.

(** What every emitted feature satisfies. *)
Definition well_segmented (f : Feature) : Prop :=
  (2 <= List.length (coordinates (geometry f)))%nat /\
  smooth (coordinates (geometry f)).

(** *** The walk along one feature, with the previous point made explicit *)

(** One step of the callback at an index above 0, once [coordinates[index-1]]
    has been read. *)
Definition step (feature : Feature) (prevPoint : Point) (st : SegState)
    (point : Point) : SegState :=
  if crossing prevPoint point
  then {| currentSegment := [point]; finalFeatures := pushIfSegment feature st |}
  else {| currentSegment := currentSegment st ++ [point];
          finalFeatures := finalFeatures st |}.

Fixpoint walk (feature : Feature) (prevPoint : Point) (st : SegState)
    (rest : list Point) : SegState :=
  match rest with
  | [] => st
  | point :: rest' => walk feature point (step feature prevPoint st point) rest'
  end.

End Segmenter.

(** ** Loading the plate boundaries ([loadData] of the [useData] hook) *)

Module PlatesLoader.
Import Normalizer Segmenter.

(** [array.map(callback)] for a callback that may not return: the new array
    is there once every call has returned. *)
Fixpoint Array_map {A B : Type} (callback : A -> option B) (array : list A)
    : option (list B) :=
  match array with
  | [] => Some []
  | a :: rest =>
      match callback a with
      | Some b =>
          match Array_map callback rest with
          | Some bs => Some (b :: bs)
          | None => None
          end
      | None => None
      end
  end.

(** The callback of [feature.geometry.coordinates.map((coords) => ...)]:
    it reads [[longitude, latitude]] and returns [[lat, lon]]. *)
Definition normalizePoint (fuel : nat) (coords : Point) : option Point :=
  match normalizeLongitude fuel (fst coords) with
  | Some lon =>
      let lat := snd coords in
      Some (lat, lon)
  | None => None
  end.

(** The callback of [platesJson.features.map((feature) => ({ ...feature,
    geometry: { ...feature.geometry, coordinates: ... } }))] *)
Definition normalizeFeature (fuel : nat) (feature : Feature) : option Feature :=
  match Array_map (normalizePoint fuel) (coordinates (geometry feature)) with
  | Some coords => Some (withCoordinates feature coords)
  | None => None
  end.

Definition normalizedFeatures (fuel : nat) (features : list Feature)
    : option (list Feature) :=
  Array_map (normalizeFeature fuel) features.

Definition finalPlatesData (fuel : nat) (features : list Feature)
    : option (list Feature) :=
  match normalizedFeatures fuel features with
  | Some normalized => Some (processPlatesData normalized)
  | None => None
  end.

End PlatesLoader.

(** ** Temporal colour mapper *)

Module ColorMapper.

(** [Math.round]: the nearest integer, halves rounded up. *)
Definition Math_round (x : Q) : Z := Qfloor (x + (1 # 2)).

(** How a template literal prints an integer-valued number (decimal digits,
    as [Number::toString] does below 10^21). *)
Definition Number_toString (n : Z) : string :=
  NilZero.string_of_int (Z.to_int n).

Section WithDate.

(** [new Date(s).getTime()]: the time value in milliseconds since the epoch,
    or [None] for the [NaN] of an invalid date. *)
Variable Date_getTime : string -> option Z.

(** With a [NaN] bound the guard [endTime <= startTime] is false and every
    channel is [NaN]. *)
Definition getEarthquakeColorByTime (time : Q) (startDate endDate : string)
    : string :=
  match Date_getTime startDate, Date_getTime endDate with
  | Some startTime, Some endTime =>
      if (endTime <=? startTime)%Z then "rgba(239, 68, 68, 0.75)"%string
      else
        let t := (time - inject_Z startTime)
                 / (inject_Z endTime - inject_Z startTime) in
        let old_r := 220 in let old_g := 210 in let old_b := 215 in
        let recent_r := 239 in let recent_g := 68 in let recent_b := 68 in
        let r := Math_round (old_r + (recent_r - old_r) * t) in
        let g := Math_round (old_g + (recent_g - old_g) * t) in
        let b := Math_round (old_b + (recent_b - old_b) * t) in
        ("rgba(" ++ Number_toString r ++ ", " ++ Number_toString g ++ ", "
           ++ Number_toString b ++ ", 0.75)")%string
  | _, _ => "rgba(NaN, NaN, NaN, 0.75)"%string
  end.

End WithDate.

(** *** An instance of [Date_getTime]: date-only ISO strings

    The date filters of the application hold strings of the form
    [YYYY-MM-DD] ([toISOString().split('T')[0]]), which [Date] reads as
    midnight UTC of that day. *)

Definition digit (c : ascii) : option Z :=
  let n := Z.of_nat (nat_of_ascii c) in
  if ((48 <=? n) && (n <=? 57))%Z then Some (n - 48)%Z else None.

Fixpoint digits (acc : Z) (cs : list ascii) : option Z :=
  match cs with
  | [] => Some acc
  | c :: cs' =>
      match digit c with
      | Some d => digits (10 * acc + d)%Z cs'
      | None => None
      end
  end.

Definition isLeapYear (y : Z) : bool :=
  ((y mod 4 =? 0) && (negb (y mod 100 =? 0) || (y mod 400 =? 0)))%Z.

Definition daysInMonth (y m : Z) : Z :=
  if (m =? 2)%Z then (if isLeapYear y then 29 else 28)%Z
  else if ((m =? 4) || (m =? 6) || (m =? 9) || (m =? 11))%Z then 30%Z
  else 31%Z.

(** Days from 1970-01-01 to the given civil date (proleptic Gregorian). *)
Definition daysFromCivil (y m d : Z) : Z :=
  let y' := (if m <=? 2 then y - 1 else y)%Z in
  let era := (y' / 400)%Z in
  let yoe := (y' - era * 400)%Z in
  let mp := ((m + 9) mod 12)%Z in
  let doy := ((153 * mp + 2) / 5 + d - 1)%Z in
  let doe := (yoe * 365 + yoe / 4 - yoe / 100 + doy)%Z in
  (era * 146097 + doe - 719468)%Z.

Definition isoDate_getTime (s : string) : option Z :=
  match list_ascii_of_string s with
  | [y1; y2; y3; y4; "-"%char; m1; m2; "-"%char; d1; d2] =>
      match digits 0 [y1; y2; y3; y4], digits 0 [m1; m2], digits 0 [d1; d2] with
      | Some y, Some m, Some d =>
          if ((1 <=? m) && (m <=? 12) && (1 <=? d) && (d <=? daysInMonth y m))%Z
          then Some (daysFromCivil y m d * 86400000)%Z
          else None
      | _, _, _ => None
      end
  | _ => None
  end.

End ColorMapper.

(** ** The segmenter, stated as a specification *)

Module SegmenterSpec.
Import Segmenter.

(** The coordinate sequence cut at every crossing: a new run starts at each
    point that crosses with its predecessor. *)
Fixpoint runs (cs : list Point) : list (list Point) :=
  match cs with
  | [] => []
  | p :: tl =>
      match tl with
      | [] => [[p]]
      | q :: _ =>
          if crossing p q then [p] :: runs tl
          else match runs tl with
               | r :: rs => (p :: r) :: rs
               | [] => [[p]]
               end
      end
  end.

(** The runs worth a feature: those of two points or more. *)
Definition isSegment (run : list Point) : bool := (1 <? List.length run)%nat.

Definition emit (feature : Feature) (pieces : list (list Point)) : list Feature :=
  map (withCoordinates feature) (filter isSegment pieces).

Definition segmentsOf (feature : Feature) : list Feature :=
  emit feature (runs (coordinates (geometry feature))).

(** Glue a pending prefix onto the first run. *)
Definition prepend (s : list Point) (pieces : list (list Point))
    : list (list Point) :=
  match pieces with
  | r :: rs => (s ++ r) :: rs
  | [] => []
  end.


End SegmenterSpec.

(** ** The records of [src/types.ts] *)

Module GeoTypes.

Inductive VolcanoStatus : Type :=
| Active | Inactive | PotentiallyActive | Extinct | Holocene | Unknown | Dormant.

(** The string value of each member of the enum. *)
Definition VolcanoStatus_value (s : VolcanoStatus) : string :=
  match s with
  | Active => "Active"
  | Inactive => "Inactive"
  | PotentiallyActive => "Potentially Active"
  | Extinct => "Extinct"
  | Holocene => "Holocene"
  | Unknown => "Unknown"
  | Dormant => "Dormant"
  end.

(** [Object.values(VolcanoStatus)], in declaration order. *)
Definition VolcanoStatus_values : list VolcanoStatus :=
  [Active; Inactive; PotentiallyActive; Extinct; Holocene; Unknown; Dormant].

Module Earthquake.
Record t : Type := {
  id : string;
  lat : Q;
  lng : Q;
  mag : option Q;   (* number | null *)
  depth : Q;
  place : string;
  time : Q
}.
End Earthquake.

Module RawVolcano.
Record t : Type := {
  name : string;
  lat : Q;
  lng : Q
}.
End RawVolcano.

Module Volcano.
Record t : Type := {
  name : string;
  lat : Q;
  lng : Q;
  id : string;
  elevation : Q;
  type : string;
  status : VolcanoStatus;
  information : string
}.
End Volcano.

(** [GeoData = Earthquake | Volcano]; the code tells them apart with
    ['mag' in item], a key every [Earthquake] has and no [Volcano] has. *)
Inductive GeoData : Type :=
| IsEarthquake (eq : Earthquake.t)
| IsVolcano (vol : Volcano.t).

Record DateRange : Type := { start : string; end_ : string }.
Record MagRange : Type := { min : Q; max : Q }.
Record Filters : Type := { dateRange : DateRange; magRange : MagRange }.

End GeoTypes.

(** ** How a point is drawn ([pointAltitude], [pointRadius], [pointColor]) *)

Module PointStyle.
Import GeoTypes.

Definition pointAltitude (d : GeoData) : Q :=
  match d with
  | IsEarthquake eq =>
      let magnitude := match Earthquake.mag eq with Some m => m | None => 0 end in
      let energiaRelativa := magnitude ^ 4 in
      let factorDeEscala := 0.0001 in
      energiaRelativa * factorDeEscala
  | IsVolcano _ => 0.01
  end.

Definition pointRadius (d : GeoData) : Q :=
  match d with
  | IsEarthquake eq =>
      (match Earthquake.mag eq with Some m => m | None => 1 end) ^ 2 * 0.008
  | IsVolcano _ => 0.25
  end.

Section WithDate.
Variable Date_getTime : string -> option Z.

Definition pointColor (filters : Filters) (d : GeoData) : string :=
  match d with
  | IsEarthquake item =>
      ColorMapper.getEarthquakeColorByTime Date_getTime (Earthquake.time item)
        (start (dateRange filters)) (end_ (dateRange filters))
  | IsVolcano item =>
      match Volcano.status item with
      | Active => "#ef4444"
      | PotentiallyActive => "#f97316"
      | Inactive => "#84cc16"
      | Extinct => "#a9826aff"
      | Unknown => "#ffffffff"
      | _ => "#a8a29e"
      end%string
  end.

End WithDate.

End PointStyle.

(** ** The list shown beside the globe ([filteredData] of the [useData] hook) *)

Module DataFilter.
Import GeoTypes.

(** [s.includes(sub)]: [sub] occurs somewhere in [s]. *)
Fixpoint includes (s sub : string) : bool :=
  if String.prefix sub s then true
  else match s with
       | EmptyString => false
       | String _ s' => includes s' sub
       end.

(** [Array.prototype.sort(cmp)] is a stable sort: with a comparator that
    orders the elements consistently its result is the one permutation that
    is sorted and keeps equal elements in their input order. Insertion from
    the right computes it: an element goes before the first element of the
    sorted rest it does not compare above. *)
Fixpoint insert {A : Type} (cmp : A -> A -> Q) (x : A) (sorted : list A) : list A :=
  match sorted with
  | [] => [x]
  | y :: rest =>
      if Qle_bool (cmp x y) 0 then x :: sorted else y :: insert cmp x rest
  end.

Definition Array_sort {A : Type} (cmp : A -> A -> Q) (l : list A) : list A :=
  fold_right (insert cmp) [] l.

Inductive ViewMode : Type := Earthquakes | Volcanoes.

Record VolcanoFilter : Type := { type : string; status : string }.

Section WithStrings.

(** [String.prototype.toLowerCase] and [String.prototype.localeCompare]
    (the sign of its result), which depend on Unicode tables and on the
    locale of the browser. *)
Variable toLowerCase : string -> string.
Variable localeCompare : string -> string -> Z.

Definition filteredData (viewMode : ViewMode)
    (earthquakes : list Earthquake.t) (volcanoes : list Volcano.t)
    (searchTerm : string) (volcanoFilter : VolcanoFilter) : list GeoData :=
  match viewMode with
  | Earthquakes =>
      map IsEarthquake
        (Array_sort (fun a b => Earthquake.time b - Earthquake.time a)
           (filter (fun eq =>
                      let nameMatch :=
                        includes (toLowerCase (Earthquake.place eq))
                                 (toLowerCase searchTerm) in
                      nameMatch)
                   earthquakes))
  | Volcanoes =>
      map IsVolcano
        (Array_sort (fun a b =>
                       inject_Z (localeCompare (Volcano.name a) (Volcano.name b)))
           (filter (fun vol =>
                      let nameMatch :=
                        includes (toLowerCase (Volcano.name vol))
                                 (toLowerCase searchTerm) in
                      let statusMatch :=
                        String.eqb (status volcanoFilter) "All"
                        || String.eqb (VolcanoStatus_value (Volcano.status vol))
                                      (status volcanoFilter) in
                      let typeMatch :=
                        String.eqb (type volcanoFilter) "All"
                        || String.eqb (Volcano.type vol) (type volcanoFilter) in
                      nameMatch && statusMatch && typeMatch)
                   volcanoes))
  end.

End WithStrings.

(** *** Instances of the two string functions, for plain ASCII text *)

Definition asciiLower (c : ascii) : ascii :=
  let n := nat_of_ascii c in
  if ((65 <=? n) && (n <=? 90))%nat then ascii_of_nat (n + 32) else c.

Fixpoint asciiToLowerCase (s : string) : string :=
  match s with
  | EmptyString => EmptyString
  | String c s' => String (asciiLower c) (asciiToLowerCase s')
  end.

Definition codeUnitCompare (a b : string) : Z :=
  match String.compare a b with
  | Lt => (-1)%Z
  | Eq => 0%Z
  | Gt => 1%Z
  end.

End DataFilter.

(** ** Volcano enrichment ([enrichVolcanoData] of [src/services/geminiService.ts]) *)

Module Enrichment.
Import GeoTypes.

(** One element of the JSON array the model is asked for (the
    [responseSchema] of the request). *)
Record Details : Type := {
  type : string;
  status : string;
  elevation : Q;
  information : string
}.

(** [Array.prototype.map] with the [(element, index)] callback. *)
Fixpoint mapi_from {A B : Type} (f : A -> nat -> B) (l : list A) (index : nat)
    : list B :=
  match l with
  | [] => []
  | x :: l' => f x index :: mapi_from f l' (S index)
  end.

Definition mapi {A B : Type} (f : A -> nat -> B) (l : list A) : list B :=
  mapi_from f l 0%nat.

(** The same when the callback may throw: the first exception aborts the
    whole [map]. *)
Fixpoint mapi_try_from {A B : Type} (f : A -> nat -> option B) (l : list A)
    (index : nat) : option (list B) :=
  match l with
  | [] => Some []
  | x :: l' =>
      match f x index with
      | None => None
      | Some y =>
          match mapi_try_from f l' (S index) with
          | None => None
          | Some ys => Some (y :: ys)
          end
      end
  end.

(** [l.slice(from, to)] for [from <= to]. *)
Definition slice {A : Type} (l : list A) (from to : nat) : list A :=
  firstn (to - from) (skipn from l).

(** [Object.values(VolcanoStatus).includes(s) ? s : VolcanoStatus.Inactive] *)
Definition checkedStatus (s : string) : VolcanoStatus :=
  match find (fun v => String.eqb (VolcanoStatus_value v) s)
             VolcanoStatus_values with
  | Some v => v
  | None => Inactive
  end.

(** How a template literal prints an array index. *)
Definition index_toString (n : nat) : string :=
  ColorMapper.Number_toString (Z.of_nat n).

Definition BATCH_SIZE : nat := 50.

Section WithService.

(** Whether [API_KEY] is set (truthy). *)
Variable API_KEY_set : bool.

(** The call [ai.models.generateContent] followed by [JSON.parse], for the
    batch starting at a given index: the parsed array, or [None] when either
    throws. The elements of the array are taken to follow the schema of the
    request. *)
Variable generateContent : nat -> list RawVolcano.t -> option (list Details).

(** [name.replace(/\s+/g, '')] *)
Variable removeWhitespace : string -> string.

Definition disabledVolcano (v : RawVolcano.t) (i : nat) : Volcano.t :=
  {| Volcano.name := RawVolcano.name v;
     Volcano.lat := RawVolcano.lat v;
     Volcano.lng := RawVolcano.lng v;
     Volcano.id := ("v_raw_" ++ index_toString i)%string;
     Volcano.elevation := 0;
     Volcano.type := "Unknown";
     Volcano.status := Inactive;
     Volcano.information :=
       "AI enrichment is disabled. Please set the API Key." |}.

Definition fallbackVolcano (i : nat) (v : RawVolcano.t) (index : nat)
    : Volcano.t :=
  {| Volcano.name := RawVolcano.name v;
     Volcano.lat := RawVolcano.lat v;
     Volcano.lng := RawVolcano.lng v;
     Volcano.id := ("v_fallback_" ++ index_toString (i + index))%string;
     Volcano.elevation := 0;
     Volcano.type := "Enrichment Failed";
     Volcano.status := Inactive;
     Volcano.information := "Could not retrieve details for this volcano." |}.

(** Reading [enrichedDetails[index].type] throws when the array has no
    element at [index]. *)
Definition enrichedVolcano (i : nat) (enrichedDetails : list Details)
    (volcano : RawVolcano.t) (index : nat) : option Volcano.t :=
  match nth_error enrichedDetails index with
  | None => None
  | Some details =>
      Some {| Volcano.name := RawVolcano.name volcano;
              Volcano.lat := RawVolcano.lat volcano;
              Volcano.lng := RawVolcano.lng volcano;
              Volcano.id :=
                ("v_" ++ index_toString (i + index) ++ "_"
                   ++ removeWhitespace (RawVolcano.name volcano))%string;
              Volcano.type := type details;
              Volcano.status := checkedStatus (status details);
              Volcano.elevation := elevation details;
              Volcano.information := information details |}
  end.

(** The body of the loop: the [try] block and its [catch]. *)
Definition enrichBatch (i : nat) (batch : list RawVolcano.t) : list Volcano.t :=
  let fallbackBatch := mapi (fallbackVolcano i) batch in
  match generateContent i batch with
  | None => fallbackBatch
  | Some enrichedDetails =>
      if negb (List.length enrichedDetails =? List.length batch)%nat
      then fallbackBatch
      else match mapi_try_from (enrichedVolcano i enrichedDetails) batch 0 with
           | Some enrichedBatch => enrichedBatch
           | None => fallbackBatch
           end
  end.

(** [for (let i = 0; i < rawVolcanoes.length; i += BATCH_SIZE) { ... }] *)
Equations enrichLoop (rawVolcanoes : list RawVolcano.t) (i : nat)
    (allEnrichedVolcanoes : list Volcano.t) : list Volcano.t
    by wf (List.length rawVolcanoes - i)%nat lt :=
  enrichLoop rawVolcanoes i allEnrichedVolcanoes
    with inspect (i <? List.length rawVolcanoes)%nat := {
    | exist _ true Hc :=
        let batch := slice rawVolcanoes i (i + BATCH_SIZE) in
        enrichLoop rawVolcanoes (i + BATCH_SIZE)
          (allEnrichedVolcanoes ++ enrichBatch i batch);
    | exist _ false _ := allEnrichedVolcanoes }.
Next Obligation.
  apply Nat.ltb_lt in Hc. unfold BATCH_SIZE. lia.
Qed.

Definition enrichVolcanoData (rawVolcanoes : list RawVolcano.t) : list Volcano.t :=
  if negb API_KEY_set then mapi disabledVolcano rawVolcanoes
  else enrichLoop rawVolcanoes 0 [].

End WithService.

(** *** Identifiers *)

(** A decimal digit; in particular none of the characters that delimit the
    index inside an identifier. *)
Definition digitChar (c : ascii) : Prop :=
  In c ["0"; "1"; "2"; "3"; "4"; "5"; "6"; "7"; "8"; "9"]%char.

Fixpoint allDigits (s : string) : Prop :=
  match s with
  | EmptyString => True
  | String c s' => digitChar c /\ allDigits s'
  end.

(** The three shapes an identifier made for index [k] can have. *)
Definition idFor (k : nat) (s : string) : Prop :=
  s = ("v_raw_" ++ index_toString k)%string \/
  s = ("v_fallback_" ++ index_toString k)%string \/
  exists suffix, s = ("v_" ++ index_toString k ++ "_" ++ suffix)%string.

(** A list of identifiers made for consecutive indices from [k] on. *)
Fixpoint idsFrom (k : nat) (ids : list string) : Prop :=
  match ids with
  | [] => True
  | s :: rest => idFor k s /\ idsFrom (S k) rest
  end.

(** The part of a [Volcano] that comes from its [RawVolcano]. *)
Definition rawPart (v : Volcano.t) : RawVolcano.t :=
  {| RawVolcano.name := Volcano.name v;
     RawVolcano.lat := Volcano.lat v;
     RawVolcano.lng := Volcano.lng v |}.

End Enrichment.

(** ** Reading the USGS feed ([fetchEarthquakesFromApi] of the data service) *)

Module EarthquakeFeed.
Import GeoTypes.

(** One feature of the GeoJSON answer, with the fields the code reads:
    [feature.id], [feature.geometry.coordinates] (longitude, latitude,
    depth) and [feature.properties]. *)
Record UsgsProperties : Type := {
  mag : option Q;
  place : string;
  time : Q
}.

Record UsgsFeature : Type := {
  id : string;
  coordinates : Q * Q * Q;
  properties : UsgsProperties
}.

(** A [number | null] operand of [-]: [null] counts as 0. *)
Definition numberOf (m : option Q) : Q :=
  match m with Some x => x | None => 0 end.

(** [data.features.map(...).sort((a, b) => b.mag! - a.mag!)] *)
Definition toEarthquakes (features : list UsgsFeature) : list Earthquake.t :=
  DataFilter.Array_sort
    (fun a b => numberOf (Earthquake.mag b) - numberOf (Earthquake.mag a))
    (map (fun feature =>
            let '(c0, c1, c2) := coordinates feature in
            {| Earthquake.id := id feature;
               Earthquake.lat := c1;
               Earthquake.lng := c0;
               Earthquake.depth := c2;
               Earthquake.mag := mag (properties feature);
               Earthquake.place := place (properties feature);
               Earthquake.time := time (properties feature) |})
         features).

End EarthquakeFeed.

(** ** Sample data *)

(** A plate-boundary feature carrying the given coordinate sequence. *)
Definition lineFeature (cs : list Segmenter.Point) : Segmenter.Feature :=
  {| Segmenter.ftype := "Feature";
     Segmenter.properties := {| Segmenter.PlateName := "PA-NA" |};
     Segmenter.geometry :=
       {| Segmenter.gtype := "LineString"; Segmenter.coordinates := cs |} |}.

(** An earthquake of the given magnitude and time, for examples. *)
Definition sampleQuake (ident : string) (where_ : string) (m : option Q) (t : Q)
    : GeoTypes.Earthquake.t :=
  {| GeoTypes.Earthquake.id := ident;
     GeoTypes.Earthquake.lat := -17;
     GeoTypes.Earthquake.lng := 179;
     GeoTypes.Earthquake.mag := m;
     GeoTypes.Earthquake.depth := 10;
     GeoTypes.Earthquake.place := where_;
     GeoTypes.Earthquake.time := t |}.

(** A volcano of the given name, type and status, for examples. *)
Definition sampleVolcano (n ty : string) (st : GeoTypes.VolcanoStatus)
    : GeoTypes.Volcano.t :=
  {| GeoTypes.Volcano.name := n;
     GeoTypes.Volcano.lat := 0;
     GeoTypes.Volcano.lng := 0;
     GeoTypes.Volcano.id := n;
     GeoTypes.Volcano.elevation := 1000;
     GeoTypes.Volcano.type := ty;
     GeoTypes.Volcano.status := st;
     GeoTypes.Volcano.information := "" |}.

Definition sampleRaw (n : string) : GeoTypes.RawVolcano.t :=
  {| GeoTypes.RawVolcano.name := n;
     GeoTypes.RawVolcano.lat := 0;
     GeoTypes.RawVolcano.lng := 0 |}.

(** A service that answers for batches of two and fails otherwise. *)
Definition sampleService (i : nat) (batch : list GeoTypes.RawVolcano.t)
    : option (list Enrichment.Details) :=
  match batch with
  | [_; _] =>
      Some [ {| Enrichment.type := "Stratovolcano";
                Enrichment.status := "Active";
                Enrichment.elevation := 3357;
                Enrichment.information := "" |};
             {| Enrichment.type := "Shield";
                Enrichment.status := "Erupting";
                Enrichment.elevation := 1247;
                Enrichment.information := "" |} ]
  | [_] => Some []
  | _ => None
  end.

(** Removal of the ASCII blanks. *)
Fixpoint dropSpaces (s : string) : string :=
  match s with
  | EmptyString => EmptyString
  | String c s' =>
      if Ascii.eqb c " " then dropSpaces s' else String c (dropSpaces s')
  end.

(** * Properties *)

(** ** Longitude normalizer *)

Section NormalizerProperties.
Import Binary64 Normalizer.


(** *** Nearest integer *)

Lemma nearest_even_bounds (q : Q) :
  (Qfloor q <= nearest_even q <= Qfloor q + 1)%Z.
Proof.
  unfold nearest_even.
  destruct (Qcompare (q - inject_Z (Qfloor q)) (1 # 2));
    [destruct (Z.even (Qfloor q))| |]; lia.
Qed.

Lemma nearest_even_above (q : Q) : q - 1 < inject_Z (nearest_even q).
Proof.
  destruct (Qfloor_bounds q) as [_ H].
  pose proof (proj1 (nearest_even_bounds q)) as Hle.
  rewrite Zle_Qle in Hle. lra.
Qed.

Lemma nearest_even_below (q : Q) : inject_Z (nearest_even q) <= q + 1.
Proof.
  destruct (Qfloor_bounds q) as [H _].
  pose proof (proj2 (nearest_even_bounds q)) as Hle.
  rewrite Zle_Qle, inject_Z_plus in Hle. change (inject_Z 1) with 1 in Hle. lra.
Qed.

Lemma nearest_even_Z (q : Q) (m : Z) : q == inject_Z m -> nearest_even q = m.
Proof.
  intros H. unfold nearest_even.
  rewrite (Qfloor_comp _ _ H), Qfloor_Z.
  assert (Hlt : q - inject_Z m < 1 # 2) by (rewrite H; lra).
  destruct (Qcompare (q - inject_Z m) (1 # 2)) eqn:E; [| reflexivity |].
  - apply Qeq_alt in E. lra.
  - apply Qgt_alt in E. lra.
Qed.

(** *** Powers of two *)

Lemma pow2_pos (e : Z) : 0 < 2 ^ e.
Proof. apply Qpower_0_lt. reflexivity. Qed.

Lemma pow2_plus (a b : Z) : 2 ^ (a + b) == 2 ^ a * 2 ^ b.
Proof. apply Qpower_plus. discriminate. Qed.

Lemma pow2_Z (n : Z) : (0 <= n)%Z -> 2 ^ n == inject_Z (2 ^ n).
Proof. intros H. rewrite (Zpower_Qpower 2 n H). reflexivity. Qed.

Lemma pow2_le_1 (e : Z) : (e <= 0)%Z -> 2 ^ e <= 1.
Proof.
  intros H. assert (E : 2 ^ e * 2 ^ (- e) == 1).
  { rewrite <- pow2_plus. replace (e + - e)%Z with 0%Z by lia. reflexivity. }
  assert (H1 : 1 <= 2 ^ (- e)) by (apply Qpower_1_le; [discriminate | lia]).
  pose proof (pow2_pos e) as Hp. nra.
Qed.

(** *** Binades *)

Lemma binade_lt (z : Q) (n : Z) :
  (1 <= n)%Z -> z < inject_Z (2 ^ n) -> (binade z < n)%Z.
Proof.
  intros Hn Hz. unfold binade. destruct (Qle_bool 1 z) eqn:E.
  - apply Qle_bool_iff in E.
    assert (H1 : (1 <= Qfloor z)%Z).
    { rewrite <- (Qfloor_Z 1). apply Qfloor_resp_le. exact E. }
    apply Z.log2_lt_pow2; [lia|].
    rewrite Zlt_Qlt. destruct (Qfloor_bounds z) as [Hf _]. lra.
  - pose proof (Z.log2_up_nonneg (Qceiling (/ z))). lia.
Qed.

Lemma binade_ge (z : Q) (n : Z) :
  (0 <= n)%Z -> inject_Z (2 ^ n) <= z -> (n <= binade z)%Z.
Proof.
  intros Hn Hz. unfold binade.
  assert (H1 : (1 <= 2 ^ n)%Z)
    by (pose proof (Z.pow_pos_nonneg 2 n ltac:(lia) Hn); lia).
  assert (E : Qle_bool 1 z = true).
  { apply Qle_bool_iff. rewrite Zle_Qle in H1.
    change (inject_Z 1) with 1 in H1. lra. }
  rewrite E. rewrite <- (Z.log2_pow2 n Hn) at 1. apply Z.log2_le_mono.
  rewrite <- (Qfloor_Z (2 ^ n)). apply Qfloor_resp_le. exact Hz.
Qed.

Lemma ulp_exponent_le (y : Q) (n : Z) :
  (1 <= n)%Z -> Qabs y < inject_Z (2 ^ n) -> (ulp_exponent y <= n - 53)%Z.
Proof.
  intros Hn Hy. unfold ulp_exponent.
  pose proof (binade_lt _ _ Hn Hy). lia.
Qed.

Lemma ulp_exponent_ge (y : Q) (n : Z) :
  (0 <= n)%Z -> inject_Z (2 ^ n) <= Qabs y -> (n - 52 <= ulp_exponent y)%Z.
Proof.
  intros Hn Hy. unfold ulp_exponent.
  pose proof (binade_ge _ _ Hn Hy). lia.
Qed.

(** *** Rounding *)

Lemma round64_nonzero (y : Q) :
  ~ y == 0 ->
  round64 y
  == inject_Z (nearest_even (y / 2 ^ ulp_exponent y)) * 2 ^ ulp_exponent y.
Proof.
  intros Hy. unfold round64.
  destruct (Qeq_bool y 0) eqn:E; [apply Qeq_bool_iff in E; contradiction|].
  cbv zeta. apply Qred_correct.
Qed.

Lemma round64_zero (y : Q) : y == 0 -> round64 y = 0.
Proof.
  intros Hy. unfold round64. apply Qeq_bool_iff in Hy. rewrite Hy. reflexivity.
Qed.

Lemma scaled_back (y : Q) (e : Z) : y / 2 ^ e * 2 ^ e == y.
Proof. field. pose proof (pow2_pos e). lra. Qed.

(** Rounding moves a number by less than one unit in the last place. *)
Lemma round64_near (y : Q) :
  ~ y == 0 ->
  y - 2 ^ ulp_exponent y < round64 y /\ round64 y <= y + 2 ^ ulp_exponent y.
Proof.
  intros Hy. rewrite (round64_nonzero y Hy).
  set (u := 2 ^ ulp_exponent y).
  assert (Hu : 0 < u) by apply pow2_pos.
  pose proof (nearest_even_above (y / u)) as Ha.
  pose proof (nearest_even_below (y / u)) as Hb.
  pose proof (scaled_back y (ulp_exponent y)) as Hs. fold u in Hs.
  split; nra.
Qed.

Lemma round64_nonneg (y : Q) : 0 <= y -> 0 <= round64 y.
Proof.
  intros Hy. destruct (Qeq_dec y 0) as [E|E].
  - rewrite (round64_zero y E). lra.
  - rewrite (round64_nonzero y E).
    set (u := 2 ^ ulp_exponent y).
    assert (Hu : 0 < u) by apply pow2_pos.
    apply Qmult_le_0_compat; [|lra].
    assert (Hq : 0 <= y / u).
    { apply Qle_shift_div_l; [exact Hu | lra]. }
    pose proof (proj1 (nearest_even_bounds (y / u))) as Hf.
    assert (H0 : (0 <= Qfloor (y / u))%Z).
    { rewrite <- (Qfloor_Z 0). apply Qfloor_resp_le. exact Hq. }
    change 0 with (inject_Z 0). rewrite <- Zle_Qle. lia.
Qed.

Lemma round64_nonpos (y : Q) : y <= 0 -> round64 y <= 0.
Proof.
  intros Hy. destruct (Qeq_dec y 0) as [E|E].
  - rewrite (round64_zero y E). lra.
  - rewrite (round64_nonzero y E).
    set (u := 2 ^ ulp_exponent y).
    assert (Hu : 0 < u) by apply pow2_pos.
    assert (Hq : y / u < 0).
    { apply Qlt_shift_div_r; [exact Hu | lra]. }
    pose proof (proj2 (nearest_even_bounds (y / u))) as Hf.
    destruct (Qfloor_bounds (y / u)) as [Hfl _].
    assert (H0 : (Qfloor (y / u) < 0)%Z)
      by (rewrite Zlt_Qlt; change (inject_Z 0) with 0; lra).
    assert (H1 : inject_Z (nearest_even (y / u)) <= 0).
    { change 0 with (inject_Z 0). rewrite <- Zle_Qle. lia. }
    nra.
Qed.

(** A value rounded from 128 or more is a multiple of 2^-45. *)
Lemma round64_grid (y : Q) : 128 <= y -> on_grid45 (round64 y).
Proof.
  intros Hy.
  assert (Hnz : ~ y == 0) by lra.
  assert (Habs : inject_Z (2 ^ 7) <= Qabs y).
  { rewrite (Qabs_pos y) by lra. exact Hy. }
  pose proof (ulp_exponent_ge y 7 ltac:(lia) Habs) as He.
  exists (nearest_even (y / 2 ^ ulp_exponent y) * 2 ^ (ulp_exponent y + 45))%Z.
  rewrite (round64_nonzero y Hnz), inject_Z_mult.
  rewrite <- (pow2_Z (ulp_exponent y + 45)) by lia.
  rewrite <- Qmult_assoc, <- pow2_plus.
  replace (ulp_exponent y + 45 + -45)%Z with (ulp_exponent y) by lia.
  reflexivity.
Qed.

(** Below 128 a rounded value stays below 129. *)
Lemma round64_small (y : Q) : y < 128 -> round64 y <= 129.
Proof.
  intros Hy. destruct (Qlt_le_dec 0 y) as [Hpos|Hneg].
  - assert (Hnz : ~ y == 0) by lra.
    assert (Habs : Qabs y < inject_Z (2 ^ 7)).
    { rewrite (Qabs_pos y) by lra. exact Hy. }
    pose proof (ulp_exponent_le y 7 ltac:(lia) Habs) as He.
    pose proof (pow2_le_1 (ulp_exponent y) ltac:(lia)) as Hu.
    destruct (round64_near y Hnz) as [_ Hle]. lra.
  - pose proof (round64_nonpos y Hneg). lra.
Qed.

(** A multiple of 2^-45 of magnitude below 256 is a double. *)
Lemma round64_exact (y : Q) : on_grid45 y -> Qabs y < 256 -> round64 y == y.
Proof.
  intros [m Hm] Habs. destruct (Qeq_dec y 0) as [E|E].
  - rewrite (round64_zero y E). symmetry. exact E.
  - pose proof (ulp_exponent_le y 8 ltac:(lia) Habs) as He.
    rewrite (round64_nonzero y E).
    set (e := ulp_exponent y) in *.
    assert (Hq : y / 2 ^ e == inject_Z (m * 2 ^ (-45 - e))).
    { rewrite inject_Z_mult, <- (pow2_Z (-45 - e)) by lia.
      apply (Qmult_inj_r _ _ (2 ^ e)); [pose proof (pow2_pos e); lra|].
      rewrite scaled_back, <- Qmult_assoc, <- pow2_plus.
      replace (-45 - e + e)%Z with (-45)%Z by lia. exact Hm. }
    rewrite (nearest_even_Z _ _ Hq), <- Hq. apply scaled_back.
Qed.

(** *** The two loops *)

(** Whatever was rounded is, above 180, a multiple of 2^-45. *)
Lemma round64_grid_above (y : Q) : grid_above (round64 y).
Proof.
  intros H. destruct (Qlt_le_dec y 128) as [Hs|Hl].
  - pose proof (round64_small y Hs). lra.
  - apply round64_grid, Hl.
Qed.

(** So is every double. *)
Lemma double_grid_above (x : Q) : is_double x -> grid_above x.
Proof.
  intros Hd H. unfold is_double in Hd.
  assert (H' : 180 < round64 x) by (rewrite Hd; exact H).
  destruct (round64_grid_above x H') as [k Hk]. exists k.
  rewrite <- Hk. symmetry. exact Hd.
Qed.

(** Rounding does not reach -180 from -104 or above. *)
Lemma round64_lower (y : Q) : -104 <= y -> -180 < round64 y.
Proof.
  intros Hy. destruct (Qlt_le_dec y 0) as [Hneg|Hpos].
  - assert (Hnz : ~ y == 0) by lra.
    assert (Habs : Qabs y < inject_Z (2 ^ 7)).
    { apply Qabs_Qlt_condition. change (inject_Z (2 ^ 7)) with 128. lra. }
    pose proof (ulp_exponent_le y 7 ltac:(lia) Habs) as He.
    pose proof (pow2_le_1 (ulp_exponent y) ltac:(lia)) as Hu.
    destruct (round64_near y Hnz) as [Hgt _]. lra.
  - pose proof (round64_nonneg y Hpos). lra.
Qed.

Lemma grid45_360 : 360 == inject_Z (360 * 2 ^ 45) * 2 ^ (-45).
Proof. reflexivity. Qed.

(** One iteration of the second loop stays above -180: from below 256 the
    difference is exact, from 256 or more it is at least -104 before
    rounding. *)
Lemma step_down (x : Q) :
  grid_above x -> 180 < x -> -180 < round64 (x - 360).
Proof.
  intros Hg Hx. destruct (Qlt_le_dec x 256) as [Hs|Hl].
  - destruct (Hg Hx) as [k Hk].
    assert (Hgrid : on_grid45 (x - 360)).
    { exists (k - 360 * 2 ^ 45)%Z. unfold Z.sub.
      rewrite inject_Z_plus, inject_Z_opp, Hk. rewrite grid45_360 at 1. ring. }
    rewrite (round64_exact _ Hgrid); [lra|].
    apply Qabs_Qlt_condition. lra.
  - apply round64_lower. lra.
Qed.

(** The equations of the loops: one test, then either one more iteration or
    exit. *)
Lemma loop_down_S fuel x :
  loop_down (S fuel) x
  = if Qgtb x 180 then loop_down fuel (round64 (x - 360)) else Some x.
Proof. reflexivity. Qed.

Lemma loop_up_S fuel x :
  loop_up (S fuel) x
  = if Qle_bool x (-180) then loop_up fuel (round64 (x + 360)) else Some x.
Proof. reflexivity. Qed.

(** The second loop keeps the lower bound and only exits at or below 180. *)
Lemma loop_down_range fuel :
  forall x r, grid_above x -> -180 < x -> loop_down fuel x = Some r ->
              -180 < r /\ r <= 180.
Proof.
  induction fuel as [|fuel IH]; intros x r Hg Hlo H; [discriminate H|].
  rewrite loop_down_S in H. destruct (Qgtb x 180) eqn:E.
  - apply Qgtb_true in E.
    apply (IH _ _ (round64_grid_above _) (step_down x Hg E) H).
  - apply Qgtb_false in E. injection H as <-. split; assumption.
Qed.

(** The first loop only exits above -180. *)
Lemma loop_up_exit fuel :
  forall x r, grid_above x -> loop_up fuel x = Some r ->
              -180 < r /\ grid_above r.
Proof.
  induction fuel as [|fuel IH]; intros x r Hg H; [discriminate H|].
  rewrite loop_up_S in H. destruct (Qle_bool x (-180)) eqn:E.
  - apply (IH _ _ (round64_grid_above _) H).
  - injection H as <-. split; [|exact Hg].
    apply Qnot_le_lt. intros Hle. apply Qle_bool_iff in Hle. congruence.
Qed.

(** Whenever the normalizer returns on a double, the result lies in
    (-180, 180]. *)
Lemma normalizeLongitude_returns_in_range fuel lon r :
  is_double lon -> normalizeLongitude fuel lon = Some r ->
  -180 < r /\ r <= 180.
Proof.
  intros Hd H. unfold normalizeLongitude in H.
  destruct (loop_up fuel lon) as [x|] eqn:Eup; [|discriminate H].
  destruct (loop_up_exit _ _ _ (double_grid_above _ Hd) Eup) as [Hlo Hg].
  exact (loop_down_range _ _ _ Hg Hlo H).
Qed.

(** At 10^20 the doubles are 16384 apart: subtracting 360 gives 10^20 back,
    and the second loop never exits. *)
Lemma loop_down_stuck fuel : loop_down fuel 100000000000000000000 = None.
Proof.
  induction fuel as [|fuel IH]; [reflexivity|].
  rewrite loop_down_S.
  replace (Qgtb 100000000000000000000 180) with true by reflexivity.
  replace (round64 (100000000000000000000 - 360))
    with 100000000000000000000 by (vm_compute; reflexivity).
  exact IH.
Qed.




(** *** Exact steps *)

(** Rounding does not tell equal rationals apart. *)
Lemma binade_comp (x y : Q) : x == y -> binade x = binade y.
Proof.
  intros H. unfold binade. rewrite (Qleb_comp _ _ (Qeq_refl 1) _ _ H).
  rewrite (Qfloor_comp _ _ H), (Qceiling_comp _ _ (Qinv_comp _ _ H)).
  reflexivity.
Qed.

Lemma ulp_exponent_comp (x y : Q) : x == y -> ulp_exponent x = ulp_exponent y.
Proof.
  intros H. unfold ulp_exponent.
  rewrite (binade_comp _ _ (Qabs_wd _ _ H)). reflexivity.
Qed.

Lemma nearest_even_comp (x y : Q) : x == y -> nearest_even x = nearest_even y.
Proof.
  intros H. unfold nearest_even. rewrite (Qfloor_comp _ _ H).
  assert (E : x - inject_Z (Qfloor y) == y - inject_Z (Qfloor y))
    by (rewrite H; reflexivity).
  rewrite (Qcompare_comp _ _ E _ _ (Qeq_refl (1 # 2))). reflexivity.
Qed.

Lemma round64_comp (x y : Q) : x == y -> round64 x = round64 y.
Proof.
  intros H. unfold round64.
  assert (E0 : Qeq_bool x 0 = Qeq_bool y 0).
  { destruct (Qeq_bool x 0) eqn:Ex, (Qeq_bool y 0) eqn:Ey; try reflexivity.
    - apply Qeq_bool_iff in Ex. apply Qeq_bool_neq in Ey. rewrite H in Ex.
      contradiction.
    - apply Qeq_bool_iff in Ey. apply Qeq_bool_neq in Ex. rewrite H in Ex.
      contradiction. }
  rewrite E0. destruct (Qeq_bool y 0); [reflexivity|]. cbv zeta.
  rewrite (ulp_exponent_comp _ _ H). apply Qred_complete.
  assert (E : x / 2 ^ ulp_exponent y == y / 2 ^ ulp_exponent y)
    by (rewrite H; reflexivity).
  rewrite (nearest_even_comp _ _ E). reflexivity.
Qed.

(** The spacing of the doubles grows with the magnitude. *)
Lemma binade_mono (a b : Q) : 0 < a -> a <= b -> (binade a <= binade b)%Z.
Proof.
  intros Ha Hab. unfold binade.
  destruct (Qle_bool 1 a) eqn:Ea, (Qle_bool 1 b) eqn:Eb.
  - apply Z.log2_le_mono, Qfloor_resp_le, Hab.
  - apply Qle_bool_iff in Ea.
    assert (Hb : ~ 1 <= b) by (intros Hb; apply Qle_bool_iff in Hb; congruence).
    lra.
  - pose proof (Z.log2_up_nonneg (Qceiling (/ a))).
    pose proof (Z.log2_nonneg (Qfloor b)). lia.
  - assert (Hinv : / b <= / a).
    { destruct (Qeq_dec a b) as [E|E]; [rewrite E; lra|].
      apply Qlt_le_weak. apply (Qinv_lt_contravar a b); lra. }
    pose proof (Z.log2_up_le_mono _ _ (Qceiling_resp_le _ _ Hinv)). lia.
Qed.

Lemma ulp_exponent_mono (a b : Q) :
  ~ a == 0 -> Qabs a <= Qabs b -> (ulp_exponent a <= ulp_exponent b)%Z.
Proof.
  intros Ha Hab. unfold ulp_exponent.
  assert (Hpos : 0 < Qabs a).
  { pose proof (Qabs_nonneg a). destruct (Qeq_dec (Qabs a) 0) as [E|E]; [|lra].
    exfalso. apply Ha. revert E. apply Qabs_case; intros; lra. }
  pose proof (binade_mono _ _ Hpos Hab). lia.
Qed.

(** A multiple of a power of two at least as fine as the grid of its own
    binade is a double. *)
Lemma round64_exact_on (y : Q) (m e : Z) :
  y == inject_Z m * 2 ^ e -> (ulp_exponent y <= e)%Z -> round64 y == y.
Proof.
  intros Hm He. destruct (Qeq_dec y 0) as [E|E].
  - rewrite (round64_zero y E). symmetry. exact E.
  - rewrite (round64_nonzero y E).
    set (u := ulp_exponent y) in *.
    assert (Hq : y / 2 ^ u == inject_Z (m * 2 ^ (e - u))).
    { rewrite inject_Z_mult, <- (pow2_Z (e - u)) by lia.
      apply (Qmult_inj_r _ _ (2 ^ u)); [pose proof (pow2_pos u); lra|].
      rewrite scaled_back, <- Qmult_assoc, <- pow2_plus.
      replace (e - u + u)%Z with e by lia. exact Hm. }
    rewrite (nearest_even_Z _ _ Hq), <- Hq. apply scaled_back.
Qed.

(** A double is a multiple of the spacing around it. *)
Lemma double_own_grid (x : Q) :
  is_double x -> ~ x == 0 ->
  exists k : Z, x == inject_Z k * 2 ^ ulp_exponent x.
Proof.
  intros Hd Hnz. unfold is_double in Hd.
  rewrite (round64_nonzero x Hnz) in Hd. eexists. symmetry. exact Hd.
Qed.

(** Below 2^56 in magnitude, adding or subtracting 360 without growing in
    magnitude is exact. *)
Lemma shift_exact (x : Q) (turn : Z) :
  is_double x -> Qabs x < inject_Z (2 ^ 56) ->
  (turn = 1 \/ turn = -1)%Z ->
  Qabs (x + 360 * inject_Z turn) <= Qabs x ->
  is_double (x + 360 * inject_Z turn).
Proof.
  intros Hd Hb Hturn Hshrink. unfold is_double.
  destruct (Qeq_dec x 0) as [E0|Hnz].
  { exfalso. rewrite E0 in Hshrink.
    destruct Hturn as [-> | ->]; vm_compute in Hshrink; apply Hshrink;
      reflexivity. }
  destruct (double_own_grid x Hd Hnz) as [k Hk].
  pose proof (ulp_exponent_le x 56 ltac:(lia) Hb) as Hux.
  set (ux := ulp_exponent x) in *.
  destruct (Qeq_dec (x + 360 * inject_Z turn) 0) as [Ey|Ey].
  { rewrite (round64_zero _ Ey). symmetry. exact Ey. }
  apply (round64_exact_on _ (k + turn * 45 * 2 ^ (3 - ux)) ux).
  - rewrite inject_Z_plus, !inject_Z_mult, <- (pow2_Z (3 - ux)) by lia.
    rewrite Qmult_plus_distr_l, <- Hk.
    rewrite <- !Qmult_assoc, <- pow2_plus.
    replace (3 - ux + ux)%Z with 3%Z by lia.
    change (2 ^ 3) with 8. change (inject_Z 45) with 45. ring.
  - apply ulp_exponent_mono; assumption.
Qed.



(** Both loops move toward zero. *)
Lemma Qabs_shrink_up (x : Q) : x <= -180 -> Qabs (x + 360) <= Qabs x.
Proof.
  intros H. rewrite (Qabs_neg x) by lra.
  apply Qabs_Qle_condition. lra.
Qed.

Lemma Qabs_shrink_down (x : Q) : 180 < x -> Qabs (x - 360) <= Qabs x.
Proof.
  intros H. rewrite (Qabs_pos x) by lra.
  apply Qabs_Qle_condition. lra.
Qed.

(** Hence, below 2^56, the iterations of both loops are exact. *)
Lemma add_exact (x : Q) :
  is_double x -> Qabs x < inject_Z (2 ^ 56) -> x <= -180 ->
  round64 (x + 360) == x + 360.
Proof.
  intros Hd Hb Hx.
  assert (E : x + 360 * inject_Z 1 == x + 360) by ring.
  assert (H : is_double (x + 360 * inject_Z 1)).
  { apply (shift_exact x 1 Hd Hb); [lia|].
    rewrite E. apply Qabs_shrink_up, Hx. }
  unfold is_double in H. rewrite (round64_comp _ _ E) in H.
  exact (Qeq_trans _ _ _ H E).
Qed.

Lemma sub_exact (x : Q) :
  is_double x -> Qabs x < inject_Z (2 ^ 56) -> 180 < x ->
  round64 (x - 360) == x - 360.
Proof.
  intros Hd Hb Hx.
  assert (E : x + 360 * inject_Z (-1) == x - 360) by ring.
  assert (H : is_double (x + 360 * inject_Z (-1))).
  { apply (shift_exact x (-1) Hd Hb); [lia|].
    rewrite E. apply Qabs_shrink_down, Hx. }
  unfold is_double in H. rewrite (round64_comp _ _ E) in H.
  exact (Qeq_trans _ _ _ H E).
Qed.

Lemma is_double_round64 (y : Q) : round64 y == y -> is_double (round64 y).
Proof.
  intros H. unfold is_double. rewrite (round64_comp _ _ H). reflexivity.
Qed.

(** *** Below 2^56: whole turns, and enough fuel for them *)

(** What the first loop returns is a double, a whole number of turns from
    where it started and no further from zero. *)
Lemma loop_up_turns (fuel : nat) :
  forall x r : Q,
    is_double x -> Qabs x < inject_Z (2 ^ 56) ->
    loop_up fuel x = Some r ->
    (exists k : Z, r == x + 360 * inject_Z k) /\
    is_double r /\ Qabs r <= Qabs x.
Proof.
  induction fuel as [|fuel IH]; intros x r Hd Hb H; [discriminate H|].
  rewrite loop_up_S in H. destruct (Qle_bool x (-180)) eqn:E.
  - apply Qle_bool_iff in E.
    pose proof (add_exact x Hd Hb E) as Hex.
    pose proof (Qabs_shrink_up x E) as Hsh.
    assert (Hsh' : Qabs (round64 (x + 360)) <= Qabs x)
      by (rewrite Hex; exact Hsh).
    destruct (IH _ _ (is_double_round64 _ Hex) ltac:(lra) H)
      as [[k Hk] [Hdr Hbr]].
    repeat split; [|exact Hdr|lra].
    exists (k + 1)%Z. rewrite Hk, Hex, inject_Z_plus.
    change (inject_Z 1) with 1. ring.
  - injection H as <-. repeat split; [|exact Hd|lra].
    exists 0%Z. change (inject_Z 0) with 0. ring.
Qed.

Lemma loop_down_turns (fuel : nat) :
  forall x r : Q,
    is_double x -> Qabs x < inject_Z (2 ^ 56) ->
    loop_down fuel x = Some r ->
    exists k : Z, r == x + 360 * inject_Z k.
Proof.
  induction fuel as [|fuel IH]; intros x r Hd Hb H; [discriminate H|].
  rewrite loop_down_S in H. destruct (Qgtb x 180) eqn:E.
  - apply Qgtb_true in E.
    pose proof (sub_exact x Hd Hb E) as Hex.
    pose proof (Qabs_shrink_down x E) as Hsh.
    assert (Hsh' : Qabs (round64 (x - 360)) <= Qabs x)
      by (rewrite Hex; exact Hsh).
    destruct (IH _ _ (is_double_round64 _ Hex) ltac:(lra) H) as [k Hk].
    exists (k - 1)%Z. rewrite Hk, Hex. unfold Z.sub.
    rewrite inject_Z_plus, inject_Z_opp. change (inject_Z 1) with 1. ring.
  - injection H as <-. exists 0%Z. change (inject_Z 0) with 0. ring.
Qed.

Lemma normalizeLongitude_turns (fuel : nat) (lon r : Q) :
  is_double lon -> Qabs lon < inject_Z (2 ^ 56) ->
  normalizeLongitude fuel lon = Some r ->
  exists k : Z, r == lon + 360 * inject_Z k.
Proof.
  intros Hd Hb H. unfold normalizeLongitude in H.
  destruct (loop_up fuel lon) as [x|] eqn:Eup; [|discriminate H].
  destruct (loop_up_turns _ _ _ Hd Hb Eup) as [[k1 Hk1] [Hdx Hbx]].
  destruct (loop_down_turns _ _ _ Hdx ltac:(lra) H) as [k2 Hk2].
  exists (k1 + k2)%Z. rewrite Hk2, Hk1, inject_Z_plus. ring.
Qed.

(** Each loop exits once its fuel covers the turns to take. *)
Lemma loop_up_returns (fuel : nat) :
  forall x : Q,
    is_double x -> Qabs x < inject_Z (2 ^ 56) ->
    -180 < x + 360 * inject_Z (Z.of_nat fuel) ->
    exists r : Q, loop_up (S fuel) x = Some r.
Proof.
  induction fuel as [|fuel IH]; intros x Hd Hb Hf; rewrite loop_up_S.
  - destruct (Qle_bool x (-180)) eqn:E; [|exists x; reflexivity].
    apply Qle_bool_iff in E. change (inject_Z (Z.of_nat 0)) with 0 in Hf. lra.
  - destruct (Qle_bool x (-180)) eqn:E; [|exists x; reflexivity].
    apply Qle_bool_iff in E.
    pose proof (add_exact x Hd Hb E) as Hex.
    pose proof (Qabs_shrink_up x E) as Hsh.
    assert (Hsh' : Qabs (round64 (x + 360)) <= Qabs x)
      by (rewrite Hex; exact Hsh).
    apply IH; [apply is_double_round64, Hex | lra |].
    rewrite Hex. rewrite Nat2Z.inj_succ in Hf. unfold Z.succ in Hf.
    rewrite inject_Z_plus in Hf. change (inject_Z 1) with 1 in Hf. lra.
Qed.

Lemma loop_down_returns (fuel : nat) :
  forall x : Q,
    is_double x -> Qabs x < inject_Z (2 ^ 56) ->
    x - 360 * inject_Z (Z.of_nat fuel) <= 180 ->
    exists r : Q, loop_down (S fuel) x = Some r.
Proof.
  induction fuel as [|fuel IH]; intros x Hd Hb Hf; rewrite loop_down_S.
  - destruct (Qgtb x 180) eqn:E; [|exists x; reflexivity].
    apply Qgtb_true in E. change (inject_Z (Z.of_nat 0)) with 0 in Hf. lra.
  - destruct (Qgtb x 180) eqn:E; [|exists x; reflexivity].
    apply Qgtb_true in E.
    pose proof (sub_exact x Hd Hb E) as Hex.
    pose proof (Qabs_shrink_down x E) as Hsh.
    assert (Hsh' : Qabs (round64 (x - 360)) <= Qabs x)
      by (rewrite Hex; exact Hsh).
    apply IH; [apply is_double_round64, Hex | lra |].
    rewrite Hex. rewrite Nat2Z.inj_succ in Hf. unfold Z.succ in Hf.
    rewrite inject_Z_plus in Hf. change (inject_Z 1) with 1 in Hf. lra.
Qed.

Lemma normalizeLongitude_returns (fuel : nat) (lon : Q) :
  is_double lon -> Qabs lon < inject_Z (2 ^ 56) ->
  Qabs lon < 180 + 360 * inject_Z (Z.of_nat fuel) ->
  exists r : Q, normalizeLongitude (S fuel) lon = Some r.
Proof.
  intros Hd Hb Hf. unfold normalizeLongitude.
  destruct (loop_up_returns fuel lon Hd Hb) as [x Hx].
  { revert Hf. apply Qabs_case; intros; lra. }
  rewrite Hx.
  destruct (loop_up_turns _ _ _ Hd Hb Hx) as [_ [Hdx Hbx]].
  apply (loop_down_returns fuel x Hdx); [lra|].
  assert (H : Qabs x < 180 + 360 * inject_Z (Z.of_nat fuel)) by lra.
  revert H. apply Qabs_case; intros; lra.
Qed.

(** *** More fuel changes nothing *)

Lemma loop_up_more (fuel extra : nat) :
  forall x r, loop_up fuel x = Some r -> loop_up (fuel + extra) x = Some r.
Proof.
  induction fuel as [|fuel IH]; intros x r H; [discriminate|].
  change (S fuel + extra)%nat with (S (fuel + extra)).
  rewrite loop_up_S in *.
  destruct (Qle_bool x (-180)); [apply IH|]; exact H.
Qed.

Lemma loop_down_more (fuel extra : nat) :
  forall x r, loop_down fuel x = Some r -> loop_down (fuel + extra) x = Some r.
Proof.
  induction fuel as [|fuel IH]; intros x r H; [discriminate|].
  change (S fuel + extra)%nat with (S (fuel + extra)).
  rewrite loop_down_S in *.
  destruct (Qgtb x 180); [apply IH|]; exact H.
Qed.

Lemma normalizeLongitude_more (fuel extra : nat) (lon r : Q) :
  normalizeLongitude fuel lon = Some r ->
  normalizeLongitude (fuel + extra) lon = Some r.
Proof.
  unfold normalizeLongitude. intros H.
  destruct (loop_up fuel lon) as [x|] eqn:E; [|discriminate].
  rewrite (loop_up_more _ extra _ _ E). apply loop_down_more, H.
Qed.

(** *** Values already in range *)

Lemma normalizeLongitude_fixed (fuel : nat) (lon : Q) :
  -180 < lon -> lon <= 180 -> normalizeLongitude (S fuel) lon = Some lon.
Proof.
  intros Hlo Hhi. unfold normalizeLongitude. rewrite loop_up_S.
  destruct (Qle_bool lon (-180)) eqn:E.
  - apply Qle_bool_iff in E. lra.
  - rewrite loop_down_S. destruct (Qgtb lon 180) eqn:E'; [|reflexivity].
    apply Qgtb_true in E'. lra.
Qed.

(** *** The claims *)

(** C1 fails on the code. 10^20 is a finite double, and [normalizeLongitude]
    does not return on it: the first loop exits at once, and in the second
    [newLon -= 360] rounds back to 10^20, so that its test [newLon > 180]
    holds again, however many tests are allowed. *)
Theorem normalizeLongitude_hangs_at_1e20 :
  is_double 100000000000000000000 /\
  forall fuel : nat, normalizeLongitude fuel 100000000000000000000 = None.
Proof.
  split; [vm_compute; reflexivity|]. intros fuel.
  unfold normalizeLongitude. destruct fuel as [|fuel]; [reflexivity|].
  rewrite loop_up_S.
  replace (Qle_bool 100000000000000000000 (-180)) with false by reflexivity.
  apply loop_down_stuck.
Qed.

(** C8. Boundary values: -180 is shifted up to 180, 180 is kept, 540 is
    brought down to 180 and 0 is kept; two tests in each loop are enough,
    and more change nothing. *)
Theorem normalizeLongitude_boundaries (fuel : nat) :
  normalizeLongitude (2 + fuel) (-180) = Some 180 /\
  normalizeLongitude (2 + fuel) 180 = Some 180 /\
  normalizeLongitude (2 + fuel) 540 = Some 180 /\
  normalizeLongitude (2 + fuel) 0 = Some 0.
Proof.
  repeat split; apply normalizeLongitude_more; vm_compute; reflexivity.
Qed.

End NormalizerProperties.

(** ** Antimeridian segmenter *)

Section SegmenterProperties.
Import Segmenter.

Lemma withCoordinates_same (f : Feature) :
  withCoordinates f (coordinates (geometry f)) = f.
Proof. destruct f as [t p [g cs]]. reflexivity. Qed.

Lemma crossing_true p q : crossing p q = true <-> 180 < Qabs (fst p - fst q).
Proof. apply Qgtb_true. Qed.

Lemma crossing_false p q : crossing p q = false <-> Qabs (fst p - fst q) <= 180.
Proof. apply Qgtb_false. Qed.

(** *** The indexed [forEach] and the walk agree *)

Lemma visitPoint_S feature coords st point i prevPoint :
  nth_error coords i = Some prevPoint ->
  visitPoint feature coords st point (S i) = step feature prevPoint st point.
Proof. intros H. unfold visitPoint, step, crossing. rewrite H. reflexivity. Qed.

Lemma forEach_from_walk feature rest :
  forall pre prevPoint st,
    forEach_from (visitPoint feature (pre ++ prevPoint :: rest)) rest
      (S (List.length pre)) st
    = walk feature prevPoint st rest.
Proof.
  induction rest as [|point rest IH]; intros pre prevPoint st; [reflexivity|].
  cbn [forEach_from walk].
  rewrite (visitPoint_S _ _ _ _ _ prevPoint)
    by (rewrite nth_error_app2, Nat.sub_diag by lia; reflexivity).
  specialize (IH (pre ++ [prevPoint]) point (step feature prevPoint st point)).
  rewrite <- app_assoc, length_app, Nat.add_comm in IH. exact IH.
Qed.

(** Segmenting a feature: nothing for an empty coordinate array, otherwise
    the walk started at the first point. *)
Lemma processFeature_nil acc feature :
  coordinates (geometry feature) = [] -> processFeature acc feature = acc.
Proof. intros H. unfold processFeature. rewrite H. reflexivity. Qed.

Lemma processFeature_cons acc feature p0 rest :
  coordinates (geometry feature) = p0 :: rest ->
  processFeature acc feature
  = pushIfSegment feature
      (walk feature p0 {| currentSegment := [p0]; finalFeatures := acc |} rest).
Proof.
  intros H. unfold processFeature. rewrite H. unfold forEach.
  cbn [forEach_from visitPoint currentSegment finalFeatures app].
  rewrite (forEach_from_walk feature rest [] p0). reflexivity.
Qed.

(** *** Smooth sequences *)

Lemma smooth_snoc s prevPoint point :
  smooth (s ++ [prevPoint]) ->
  Qabs (fst prevPoint - fst point) <= 180 ->
  smooth ((s ++ [prevPoint]) ++ [point]).
Proof.
  induction s as [|a s IH]; intros Hs Hpq.
  - cbn. tauto.
  - destruct s as [|b s].
    + cbn in *. tauto.
    + cbn [app smooth] in *. destruct Hs as [Hab Hs]. split; [exact Hab|].
      apply IH; assumption.
Qed.

Lemma smooth_tail p cs : smooth (p :: cs) -> smooth cs.
Proof. destruct cs; cbn; tauto. Qed.

Lemma smooth_no_crossings cs : smooth cs <-> no_crossings cs.
Proof.
  unfold no_crossings. induction cs as [|a cs IH].
  - split; [|intros; exact I]. intros _ [|i] p q H; discriminate H.
  - split.
    + intros Hs [|i] p q Hp Hq.
      * destruct cs as [|b cs]; [discriminate Hq|].
        cbn in Hp, Hq. injection Hp as <-. injection Hq as <-.
        exact (proj1 Hs).
      * apply smooth_tail in Hs. exact (proj1 IH Hs i p q Hp Hq).
    + intros H. destruct cs as [|b cs]; [exact I|]. split.
      * exact (H 0%nat a b eq_refl eq_refl).
      * apply IH. intros i p q Hp Hq. exact (H (S i) p q Hp Hq).
Qed.

(** *** Invariant of the walk *)

(** The state the walk keeps: the current segment is not empty, ends at the
    point last visited and contains no crossing; every feature emitted so
    far is well segmented. *)
Definition walk_inv (prevPoint : Point) (st : SegState) : Prop :=
  (exists s, currentSegment st = s ++ [prevPoint]) /\
  smooth (currentSegment st) /\
  Forall well_segmented (finalFeatures st).

Lemma pushIfSegment_ok feature st :
  smooth (currentSegment st) ->
  Forall well_segmented (finalFeatures st) ->
  Forall well_segmented (pushIfSegment feature st).
Proof.
  intros Hs Hout. unfold pushIfSegment.
  destruct (1 <? List.length (currentSegment st))%nat eqn:E; [|exact Hout].
  apply Nat.ltb_lt in E.
  apply Forall_app. split; [exact Hout|].
  constructor; [|constructor]. split; cbn; [lia|exact Hs].
Qed.

Lemma step_inv feature prevPoint st point :
  walk_inv prevPoint st -> walk_inv point (step feature prevPoint st point).
Proof.
  intros [[s Hseg] [Hs Hout]]. unfold step.
  destruct (crossing prevPoint point) eqn:E; repeat split; cbn.
  - exists []. reflexivity.
  - apply pushIfSegment_ok; assumption.
  - exists (currentSegment st). reflexivity.
  - rewrite Hseg in *. apply smooth_snoc; [exact Hs|].
    apply crossing_false. exact E.
  - exact Hout.
Qed.

Lemma walk_keeps_inv feature rest :
  forall prevPoint st,
    walk_inv prevPoint st ->
    exists lastPoint, walk_inv lastPoint (walk feature prevPoint st rest).
Proof.
  induction rest as [|point rest IH]; intros prevPoint st Hinv; cbn.
  - exists prevPoint. exact Hinv.
  - apply IH. apply step_inv. exact Hinv.
Qed.

Lemma processFeature_ok acc feature :
  Forall well_segmented acc ->
  Forall well_segmented (processFeature acc feature).
Proof.
  intros Hacc.
  destruct (coordinates (geometry feature)) as [|p0 rest] eqn:Hcs.
  - rewrite processFeature_nil by exact Hcs. exact Hacc.
  - rewrite (processFeature_cons _ _ _ _ Hcs).
    destruct (walk_keeps_inv feature rest p0
                {| currentSegment := [p0]; finalFeatures := acc |})
      as [lastPoint [_ [Hs Hout]]].
    { split; [exists []; reflexivity | split; [exact I | exact Hacc]]. }
    apply pushIfSegment_ok; assumption.
Qed.

Lemma processPlatesData_ok features :
  Forall well_segmented (processPlatesData features).
Proof.
  unfold processPlatesData.
  assert (H : forall acc, Forall well_segmented acc ->
                Forall well_segmented (fold_left processFeature features acc)).
  { induction features as [|f fs IH]; intros acc Hacc; cbn; [exact Hacc|].
    apply IH, processFeature_ok, Hacc. }
  apply H. constructor.
Qed.

(** C2. Every feature the segmenter emits has at least two points. *)
Theorem processPlatesData_at_least_two_points
    (features : list Feature) (f : Feature) :
  In f (processPlatesData features) ->
  (2 <= List.length (coordinates (geometry f)))%nat.
Proof.
  intros Hin.
  pose proof (processPlatesData_ok features) as Hall.
  rewrite Forall_forall in Hall. exact (proj1 (Hall f Hin)).
Qed.


(** *** Features without crossings *)

Lemma walk_smooth feature rest :
  forall prevPoint st,
    smooth (prevPoint :: rest) ->
    walk feature prevPoint st rest
    = {| currentSegment := currentSegment st ++ rest;
         finalFeatures := finalFeatures st |}.
Proof.
  induction rest as [|point rest IH]; intros prevPoint st Hs.
  - cbn. rewrite app_nil_r. destruct st; reflexivity.
  - destruct Hs as [Hpq Hs]. cbn [walk]. unfold step.
    apply crossing_false in Hpq. rewrite Hpq.
    rewrite (IH point _ Hs). cbn. rewrite <- app_assoc. reflexivity.
Qed.

Lemma processFeature_no_crossings acc feature :
  (2 <= List.length (coordinates (geometry feature)))%nat ->
  no_crossings (coordinates (geometry feature)) ->
  processFeature acc feature = acc ++ [feature].
Proof.
  intros Hlen Hnc. apply smooth_no_crossings in Hnc.
  destruct (coordinates (geometry feature)) as [|p0 rest] eqn:Hcs;
    [cbn in Hlen; lia|].
  rewrite (processFeature_cons _ _ _ _ Hcs), (walk_smooth _ _ _ _ Hnc).
  unfold pushIfSegment. cbn [currentSegment finalFeatures app].
  replace (1 <? List.length (p0 :: rest))%nat with true
    by (symmetry; apply Nat.ltb_lt; exact Hlen).
  rewrite <- Hcs, withCoordinates_same. reflexivity.
Qed.

(** C6, as the code has it. A feature with at least two points and no
    crossing yields exactly one output segment, equal to the input feature:
    same points in the same order, same metadata. *)
Theorem processPlatesData_no_crossings_identity (feature : Feature) :
  (2 <= List.length (coordinates (geometry feature)))%nat ->
  no_crossings (coordinates (geometry feature)) ->
  processPlatesData [feature] = [feature].
Proof.
  intros Hlen Hnc. unfold processPlatesData. cbn [fold_left].
  rewrite processFeature_no_crossings by assumption. reflexivity.
Qed.

Lemma processPlatesData_no_crossings_identity_witness :
  processPlatesData [lineFeature [(10, 0); (20, 5); (30, 10)]]
  = [lineFeature [(10, 0); (20, 5); (30, 10)]].
Proof.
  apply processPlatesData_no_crossings_identity.
  - cbn. lia.
  - apply smooth_no_crossings. cbn.
    repeat split; apply Qle_bool_iff; reflexivity.
Defined.

(** C6, as stated, fails on a feature with a single point: it contains no
    crossing, yet no segment is emitted for it. *)
Lemma single_point_feature_yields_no_segment :
  no_crossings (coordinates (geometry (lineFeature [(10, 20)]))) /\
  ~ (exists seg : Feature,
       processPlatesData [lineFeature [(10, 20)]] = [seg] /\
       coordinates (geometry seg)
       = coordinates (geometry (lineFeature [(10, 20)]))).
Proof.
  split.
  - apply smooth_no_crossings. exact I.
  - intros [seg [H _]]. vm_compute in H. discriminate H.
Qed.

(** *** Worked examples *)

(** C4. A feature whose two points cross the antimeridian yields no
    segment; the three points (170,0), (-170,0), (-160,0) yield exactly one
    segment, made of the last two. *)
Theorem processPlatesData_crossing_examples (feature2 feature3 : Feature) :
  coordinates (geometry feature2) = [(179, 0); (-179, 0)] ->
  coordinates (geometry feature3) = [(170, 0); (-170, 0); (-160, 0)] ->
  processPlatesData [feature2] = [] /\
  processPlatesData [feature3]
  = [withCoordinates feature3 [(-170, 0); (-160, 0)]].
Proof.
  intros H2 H3. unfold processPlatesData, processFeature. cbn [fold_left].
  rewrite H2, H3. split; reflexivity.
Qed.

Lemma processPlatesData_crossing_examples_witness :
  processPlatesData [lineFeature [(179, 0); (-179, 0)]] = [] /\
  processPlatesData [lineFeature [(170, 0); (-170, 0); (-160, 0)]]
  = [withCoordinates (lineFeature [(170, 0); (-170, 0); (-160, 0)])
       [(-170, 0); (-160, 0)]].
Proof.
  apply processPlatesData_crossing_examples; reflexivity.
Defined.

Lemma processPlatesData_at_least_two_points_witness :
  (2 <= List.length
          (coordinates (geometry (lineFeature [(-170, 0); (-160, 0)]%Q))))%nat.
Proof.
  apply (processPlatesData_at_least_two_points
           [lineFeature [(170, 0); (-170, 0); (-160, 0)]]).
  vm_compute. left. reflexivity.
Defined.


End SegmenterProperties.

(** ** Loading the plate boundaries *)

Section PlatesLoaderProperties.
Import Binary64 Normalizer Segmenter PlatesLoader.


Lemma Array_map_length {A B : Type} (callback : A -> option B) :
  forall (array : list A) (result : list B),
    Array_map callback array = Some result ->
    List.length result = List.length array.
Proof.
  induction array as [|a rest IH]; intros result H; cbn in H.
  - injection H as <-. reflexivity.
  - destruct (callback a) as [b0|]; [|discriminate H].
    destruct (Array_map callback rest) as [bs|]; [|discriminate H].
    injection H as <-. cbn. rewrite (IH bs eq_refl). reflexivity.
Qed.

(** Every point handed to the segmenter by [loadData] is a raw point with
    its two components swapped: latitude first, normalized longitude
    second. *)
Lemma normalizePoint_swaps (fuel : nat) (raw p : Point) :
  normalizePoint fuel raw = Some p ->
  fst p = snd raw /\ normalizeLongitude fuel (fst raw) = Some (snd p).
Proof.
  unfold normalizePoint. intros H.
  destruct (normalizeLongitude fuel (fst raw)) as [lon|]; [|discriminate H].
  injection H as <-. split; reflexivity.
Qed.


(** Latitudes never differ by more than 180, so on the swapped pairs the
    crossing test never fires: [loadData] gets back each line of two or more
    points whole. *)
Lemma normalizePoint_no_crossings (fuel : nat) :
  forall cs coords : list Point,
    (forall p, In p cs -> -90 <= snd p /\ snd p <= 90) ->
    Array_map (normalizePoint fuel) cs = Some coords ->
    smooth coords.
Proof.
  induction cs as [|a cs IH]; intros coords Hlat H; cbn in H.
  - injection H as <-. exact I.
  - destruct (normalizePoint fuel a) as [a'|] eqn:Ea; [|discriminate H].
    destruct (Array_map (normalizePoint fuel) cs) as [cs'|] eqn:Ec;
      [|discriminate H].
    injection H as <-.
    assert (Hs : smooth cs')
      by (apply IH; [intros p Hp; apply Hlat; right; exact Hp | reflexivity]).
    destruct cs as [|b cs]; cbn in Ec.
    + injection Ec as <-. exact I.
    + destruct (normalizePoint fuel b) as [b'|] eqn:Eb; [|discriminate Ec].
      destruct (Array_map (normalizePoint fuel) cs) as [cs''|];
        [|discriminate Ec].
      injection Ec as <-.
      change (Qabs (fst a' - fst b') <= 180 /\ smooth (b' :: cs'')).
      split; [|exact Hs].
      destruct (normalizePoint_swaps _ _ _ Ea) as [-> _].
      destruct (normalizePoint_swaps _ _ _ Eb) as [-> _].
      destruct (Hlat a (or_introl eq_refl)) as [Ha1 Ha2].
      destruct (Hlat b (or_intror (or_introl eq_refl))) as [Hb1 Hb2].
      apply Qabs_Qle_condition. split; lra.
Qed.

Lemma finalPlatesData_never_splits (fuel : nat) (feature : Feature) :
  (2 <= List.length (coordinates (geometry feature)))%nat ->
  (forall p, In p (coordinates (geometry feature)) ->
             -90 <= snd p /\ snd p <= 90) ->
  finalPlatesData fuel [feature] = normalizedFeatures fuel [feature].
Proof.
  intros Hlen Hlat. unfold finalPlatesData, normalizedFeatures.
  cbn [Array_map]. unfold normalizeFeature.
  destruct (Array_map (normalizePoint fuel) (coordinates (geometry feature)))
    as [coords|] eqn:Ec; [|reflexivity].
  f_equal. unfold processPlatesData. cbn [fold_left].
  apply (processFeature_no_crossings []); cbn.
  - rewrite (Array_map_length _ _ _ Ec). exact Hlen.
  - apply smooth_no_crossings.
    exact (normalizePoint_no_crossings fuel _ _ Hlat Ec).
Qed.

(** C3 fails on the code. For the boundary (179,-16), (-179,-17), (-178,-18),
    given as [[longitude, latitude]] pairs, the first components handed to
    the segmenter are the latitudes -16, -17, -18; the segmenter compares
    those, sees no crossing and emits the whole line as one segment, the
    antimeridian crossing inside it. On the unswapped pairs it drops the
    first point and emits the other two. *)
Theorem loadData_hands_latitudes_to_segmenter (fuel : nat) :
  let raw := lineFeature [(179, -16); (-179, -17); (-178, -18)] in
  option_map (map (fun f => map fst (coordinates (geometry f))))
             (normalizedFeatures (S fuel) [raw])
  = Some [[-16; -17; -18]] /\
  finalPlatesData (S fuel) [raw]
  = Some [lineFeature [(-16, 179); (-17, -179); (-18, -178)]] /\
  processPlatesData [raw] = [lineFeature [(-179, -17); (-178, -18)]].
Proof. repeat split; reflexivity. Qed.

End PlatesLoaderProperties.

(** ** Temporal colour mapper *)

Section ColorMapperProperties.
Import ColorMapper.

Variable Date_getTime : string -> option Z.

Lemma Math_round_interpolate (old recent t v : Q) :
  t == v ->
  Math_round (old + (recent - old) * t) = Math_round (old + (recent - old) * v).
Proof. intros H. apply Qfloor_comp. rewrite H. reflexivity. Qed.

Lemma window_span_nonzero (startTime endTime : Z) :
  (startTime < endTime)%Z -> ~ inject_Z endTime - inject_Z startTime == 0.
Proof. intros H. rewrite Zlt_Qlt in H. lra. Qed.

(** Past the guard of a proper window, the colour only depends on the
    normalized position [t]. *)
Lemma getEarthquakeColorByTime_at (time v : Q) (startDate endDate : string)
    (startTime endTime : Z) :
  Date_getTime startDate = Some startTime ->
  Date_getTime endDate = Some endTime ->
  (startTime < endTime)%Z ->
  (time - inject_Z startTime) / (inject_Z endTime - inject_Z startTime) == v ->
  getEarthquakeColorByTime Date_getTime time startDate endDate
  = ("rgba(" ++ Number_toString (Math_round (220 + (239 - 220) * v)) ++ ", "
       ++ Number_toString (Math_round (210 + (68 - 210) * v)) ++ ", "
       ++ Number_toString (Math_round (215 + (68 - 215) * v))
       ++ ", 0.75)")%string.
Proof.
  intros Hs He Hlt Ht. unfold getEarthquakeColorByTime. rewrite Hs, He.
  replace (endTime <=? startTime)%Z with false
    by (symmetry; apply Z.leb_gt; exact Hlt).
  cbv zeta. rewrite !(Math_round_interpolate _ _ _ _ Ht). reflexivity.
Qed.

(** C5. Whenever the window's end is not after its start, the colour is the
    sentinel "rgba(239, 68, 68, 0.75)", whatever the event time: the function
    returns it as a value. *)
Theorem getEarthquakeColorByTime_degenerate_window
    (time : Q) (startDate endDate : string) (startTime endTime : Z) :
  Date_getTime startDate = Some startTime ->
  Date_getTime endDate = Some endTime ->
  (endTime <= startTime)%Z ->
  getEarthquakeColorByTime Date_getTime time startDate endDate
  = "rgba(239, 68, 68, 0.75)"%string.
Proof.
  intros Hs He Hle. unfold getEarthquakeColorByTime. rewrite Hs, He.
  replace (endTime <=? startTime)%Z with true
    by (symmetry; apply Z.leb_le; exact Hle).
  reflexivity.
Qed.

(** C7. For a window whose start is strictly before its end, an event at
    the window's start is coloured "rgba(220, 210, 215, 0.75)" and an event
    at its end "rgba(239, 68, 68, 0.75)". *)
Theorem getEarthquakeColorByTime_endpoints
    (startDate endDate : string) (startTime endTime : Z) :
  Date_getTime startDate = Some startTime ->
  Date_getTime endDate = Some endTime ->
  (startTime < endTime)%Z ->
  getEarthquakeColorByTime Date_getTime (inject_Z startTime) startDate endDate
  = "rgba(220, 210, 215, 0.75)"%string /\
  getEarthquakeColorByTime Date_getTime (inject_Z endTime) startDate endDate
  = "rgba(239, 68, 68, 0.75)"%string.
Proof.
  intros Hs He Hlt.
  pose proof (window_span_nonzero _ _ Hlt) as Hnz. split.
  - rewrite (getEarthquakeColorByTime_at _ 0 _ _ _ _ Hs He Hlt);
      [reflexivity | field; exact Hnz].
  - rewrite (getEarthquakeColorByTime_at _ 1 _ _ _ _ Hs He Hlt);
      [reflexivity | field; exact Hnz].
Qed.

(** C9. For a window whose start is strictly before its end, an event
    exactly halfway (normalized position 1/2) is coloured
    "rgba(230, 139, 142, 0.75)": 229.5 and 141.5 are rounded up to 230 and
    142, and 139 is exact. *)
Theorem getEarthquakeColorByTime_midpoint
    (time : Q) (startDate endDate : string) (startTime endTime : Z) :
  Date_getTime startDate = Some startTime ->
  Date_getTime endDate = Some endTime ->
  (startTime < endTime)%Z ->
  time == (inject_Z startTime + inject_Z endTime) / 2 ->
  getEarthquakeColorByTime Date_getTime time startDate endDate
  = "rgba(230, 139, 142, 0.75)"%string.
Proof.
  intros Hs He Hlt Hmid.
  pose proof (window_span_nonzero _ _ Hlt) as Hnz.
  rewrite (getEarthquakeColorByTime_at _ (1 # 2) _ _ _ _ Hs He Hlt);
    [reflexivity | rewrite Hmid; field; exact Hnz].
Qed.

End ColorMapperProperties.

Example isoDate_getTime_samples :
  ColorMapper.isoDate_getTime "2024-01-01" = Some 1704067200000%Z /\
  ColorMapper.isoDate_getTime "2024-01-10" = Some 1704844800000%Z /\
  ColorMapper.isoDate_getTime "1970-01-01" = Some 0%Z /\
  ColorMapper.isoDate_getTime "2000-02-29" = Some 951782400000%Z /\
  ColorMapper.isoDate_getTime "1969-12-31" = Some (-86400000)%Z /\
  ColorMapper.isoDate_getTime "2023-02-29" = None /\
  ColorMapper.isoDate_getTime "yesterday" = None.
Proof. repeat split; reflexivity. Qed.

Lemma getEarthquakeColorByTime_degenerate_window_witness :
  ColorMapper.getEarthquakeColorByTime ColorMapper.isoDate_getTime
    1704500000000 "2024-01-10" "2024-01-01"
  = "rgba(239, 68, 68, 0.75)"%string.
Proof.
  apply (getEarthquakeColorByTime_degenerate_window ColorMapper.isoDate_getTime
           1704500000000 "2024-01-10" "2024-01-01"
           1704844800000 1704067200000).
  - reflexivity.
  - reflexivity.
  - lia.
Defined.

Lemma getEarthquakeColorByTime_endpoints_witness :
  ColorMapper.getEarthquakeColorByTime ColorMapper.isoDate_getTime
    (inject_Z 1704067200000) "2024-01-01" "2024-01-10"
  = "rgba(220, 210, 215, 0.75)"%string /\
  ColorMapper.getEarthquakeColorByTime ColorMapper.isoDate_getTime
    (inject_Z 1704844800000) "2024-01-01" "2024-01-10"
  = "rgba(239, 68, 68, 0.75)"%string.
Proof.
  apply (getEarthquakeColorByTime_endpoints ColorMapper.isoDate_getTime
           "2024-01-01" "2024-01-10" 1704067200000 1704844800000).
  - reflexivity.
  - reflexivity.
  - lia.
Defined.

Lemma getEarthquakeColorByTime_midpoint_witness :
  ColorMapper.getEarthquakeColorByTime ColorMapper.isoDate_getTime
    1704456000000 "2024-01-01" "2024-01-10"
  = "rgba(230, 139, 142, 0.75)"%string.
Proof.
  apply (getEarthquakeColorByTime_midpoint ColorMapper.isoDate_getTime
           1704456000000 "2024-01-01" "2024-01-10"
           1704067200000 1704844800000).
  - reflexivity.
  - reflexivity.
  - lia.
  - reflexivity.
Defined.

(** * Further properties *)

(** ** Longitude normalizer: what value it picks *)

Section NormalizerCharacterisation.
Import Binary64 Normalizer.

(** Two values of (-180, 180] a whole number of turns apart are equal. *)
Lemma one_representative (a b : Q) (k : Z) :
  -180 < a -> a <= 180 -> -180 < b -> b <= 180 ->
  a == b + 360 * inject_Z k -> a == b.
Proof.
  intros Ha1 Ha2 Hb1 Hb2 H.
  assert (Hk : k = 0%Z).
  { destruct (Z_lt_le_dec k 1) as [Hlt|Hge].
    - destruct (Z_lt_le_dec (-1) k) as [Hgt|Hle]; [lia|].
      rewrite Zle_Qle in Hle. change (inject_Z (-1)) with (-1) in Hle. lra.
    - rewrite Zle_Qle in Hge. change (inject_Z 1) with 1 in Hge. lra. }
  subst k. rewrite H. change (inject_Z 0) with 0. ring.
Qed.

(** X1. Normalizing twice is normalizing once: on a double, a second call on
    the result of the first returns that result again, and where the first
    does not return there is nothing for the second to add. *)
Theorem normalizeLongitude_twice (fuel : nat) (lon : Q) :
  is_double lon ->
  match normalizeLongitude fuel lon with
  | Some r => normalizeLongitude fuel r
  | None => None
  end = normalizeLongitude fuel lon.
Proof.
  intros Hd. destruct (normalizeLongitude fuel lon) as [r|] eqn:E;
    [|reflexivity].
  destruct (normalizeLongitude_returns_in_range _ _ _ Hd E) as [Hlo Hhi].
  destruct fuel as [|fuel]; [discriminate E|].
  apply normalizeLongitude_fixed; assumption.
Qed.

Lemma normalizeLongitude_twice_witness :
  match normalizeLongitude 3 540 with
  | Some r => normalizeLongitude 3 r
  | None => None
  end = normalizeLongitude 3 540.
Proof.
  apply (normalizeLongitude_twice 3 540). vm_compute. reflexivity.
Defined.

(** X2. A longitude already in (-180, 180] is returned as it is, at the
    first test of each loop. *)
Theorem normalizeLongitude_identity_in_range (fuel : nat) (lon : Q) :
  -180 < lon -> lon <= 180 -> normalizeLongitude (S fuel) lon = Some lon.
Proof. apply normalizeLongitude_fixed. Qed.

Lemma normalizeLongitude_identity_in_range_witness :
  normalizeLongitude 1 (-179.5) = Some (-179.5).
Proof.
  apply (normalizeLongitude_identity_in_range 0).
  - apply Qgtb_true. reflexivity.
  - apply Qle_bool_iff. reflexivity.
Defined.

(** X3. On a double below 2^56 in magnitude every iteration is exact: the
    call returns once the fuel covers the turns to take, and its result
    differs from the input by a whole number of turns of 360 degrees. *)
Theorem normalizeLongitude_whole_turns (fuel : nat) (lon : Q) :
  is_double lon -> Qabs lon < inject_Z (2 ^ 56) ->
  Qabs lon < 180 + 360 * inject_Z (Z.of_nat fuel) ->
  exists (r : Q) (k : Z),
    normalizeLongitude (S fuel) lon = Some r /\
    r == lon + 360 * inject_Z k.
Proof.
  intros Hd Hb Hf.
  destruct (normalizeLongitude_returns fuel lon Hd Hb Hf) as [r Hr].
  destruct (normalizeLongitude_turns _ _ _ Hd Hb Hr) as [k Hk].
  exists r, k. split; assumption.
Qed.

Lemma normalizeLongitude_whole_turns_witness :
  exists (r : Q) (k : Z),
    normalizeLongitude 4 900.25 = Some r /\
    r == 900.25 + 360 * inject_Z k.
Proof.
  apply (normalizeLongitude_whole_turns 3 900.25); vm_compute; reflexivity.
Defined.

(** X4. Two doubles below 2^56 in magnitude that are exactly a whole number
    of turns apart are normalized to the same value. *)
Theorem normalizeLongitude_periodic (fuel : nat) (lon lon' : Q) (k : Z) :
  is_double lon -> Qabs lon < inject_Z (2 ^ 56) ->
  Qabs lon < 180 + 360 * inject_Z (Z.of_nat fuel) ->
  is_double lon' -> Qabs lon' < inject_Z (2 ^ 56) ->
  Qabs lon' < 180 + 360 * inject_Z (Z.of_nat fuel) ->
  lon' == lon + 360 * inject_Z k ->
  exists r r' : Q,
    normalizeLongitude (S fuel) lon = Some r /\
    normalizeLongitude (S fuel) lon' = Some r' /\
    r' == r.
Proof.
  intros Hd Hb Hf Hd' Hb' Hf' Hk.
  destruct (normalizeLongitude_returns fuel lon Hd Hb Hf) as [r Hr].
  destruct (normalizeLongitude_returns fuel lon' Hd' Hb' Hf') as [r' Hr'].
  destruct (normalizeLongitude_turns _ _ _ Hd Hb Hr) as [k1 H1].
  destruct (normalizeLongitude_turns _ _ _ Hd' Hb' Hr') as [k2 H2].
  destruct (normalizeLongitude_returns_in_range _ _ _ Hd Hr) as [Ha1 Ha2].
  destruct (normalizeLongitude_returns_in_range _ _ _ Hd' Hr') as [Hb1 Hb2].
  exists r, r'. split; [exact Hr|]. split; [exact Hr'|].
  apply (one_representative _ _ (k + k2 - k1)%Z); try assumption.
  rewrite H2, H1, Hk. unfold Z.sub.
  rewrite !inject_Z_plus, inject_Z_opp. ring.
Qed.

Lemma normalizeLongitude_periodic_witness :
  exists r r' : Q,
    normalizeLongitude 4 (-179.5) = Some r /\
    normalizeLongitude 4 900.5 = Some r' /\
    r' == r.
Proof.
  apply (normalizeLongitude_periodic 3 (-179.5) 900.5 3);
    vm_compute; reflexivity.
Defined.

(** X5. Below 2^56 the normalizer is characterised by its range and the
    turns: any value of (-180, 180] a whole number of turns away from the
    input is the result. *)
Theorem normalizeLongitude_unique (fuel : nat) (lon y : Q) (k : Z) :
  is_double lon -> Qabs lon < inject_Z (2 ^ 56) ->
  Qabs lon < 180 + 360 * inject_Z (Z.of_nat fuel) ->
  -180 < y -> y <= 180 -> y == lon + 360 * inject_Z k ->
  exists r : Q, normalizeLongitude (S fuel) lon = Some r /\ r == y.
Proof.
  intros Hd Hb Hf Hy1 Hy2 Hy.
  destruct (normalizeLongitude_returns fuel lon Hd Hb Hf) as [r Hr].
  destruct (normalizeLongitude_turns _ _ _ Hd Hb Hr) as [k1 H1].
  destruct (normalizeLongitude_returns_in_range _ _ _ Hd Hr) as [Ha1 Ha2].
  exists r. split; [exact Hr|].
  apply (one_representative _ _ (k1 - k)%Z); try assumption.
  rewrite H1, Hy. unfold Z.sub. rewrite inject_Z_plus, inject_Z_opp. ring.
Qed.

Lemma normalizeLongitude_unique_witness :
  exists r : Q, normalizeLongitude 4 900.25 = Some r /\ r == 180.25 - 360.
Proof.
  apply (normalizeLongitude_unique 3 900.25 (180.25 - 360) (-3)%Z);
    vm_compute; first [reflexivity | discriminate].
Defined.

(** X29. Whenever the normalizer returns on a double, of whatever magnitude,
    the result lies in (-180, 180]. *)
Theorem normalizeLongitude_range_when_it_returns (fuel : nat) (lon r : Q) :
  is_double lon -> normalizeLongitude fuel lon = Some r ->
  -180 < r /\ r <= 180.
Proof. apply normalizeLongitude_returns_in_range. Qed.

Lemma normalizeLongitude_range_when_it_returns_witness :
  -180 < 359 # 2 /\ 359 # 2 <= 180.
Proof.
  apply (normalizeLongitude_range_when_it_returns 5 (-900.5) (359 # 2));
    vm_compute; reflexivity.
Defined.

(** Where the sum is rounded the period is lost: the double nearest to
    0.1 + 360 is normalized to 0.10000000000002274, not to the double
    nearest to 0.1; and 360 below 2^57 there is no double, the loop
    subtracts 352. *)
Example rounded_sums :
  normalizeLongitude 2 (round64 (round64 0.1 + 360))
  = Some (879609302221 # 8796093022208) /\
  normalizeLongitude 2 (round64 0.1)
  = Some (3602879701896397 # 36028797018963968) /\
  round64 (inject_Z (2 ^ 57) - 360) = inject_Z (2 ^ 57 - 352).
Proof. repeat split; vm_compute; reflexivity. Qed.

End NormalizerCharacterisation.

(** ** Antimeridian segmenter: cut at the crossings, keep the long runs *)

Section SegmenterRefinement.
Import Segmenter SegmenterSpec.

Lemma runs_cons2 p q tl :
  runs (p :: q :: tl)
  = if crossing p q then [p] :: runs (q :: tl)
    else match runs (q :: tl) with
         | r :: rs => (p :: r) :: rs
         | [] => [[p]]
         end.
Proof. reflexivity. Qed.

Lemma runs_shape p tl : exists r rs, runs (p :: tl) = (p :: r) :: rs.
Proof.
  destruct tl as [|q tl]; [exists [], []; reflexivity|].
  rewrite runs_cons2. destruct (crossing p q).
  - exists [], (runs (q :: tl)). reflexivity.
  - destruct (runs (q :: tl)) as [|r rs]; [exists [], [] | exists r, rs];
      reflexivity.
Qed.

Lemma runs_cons_cross p q tl :
  crossing p q = true -> runs (p :: q :: tl) = [p] :: runs (q :: tl).
Proof. intros H. rewrite runs_cons2, H. reflexivity. Qed.

Lemma runs_cons_join p q tl r rs :
  crossing p q = false -> runs (q :: tl) = r :: rs ->
  runs (p :: q :: tl) = (p :: r) :: rs.
Proof. intros H Hr. rewrite runs_cons2, H, Hr. reflexivity. Qed.

Lemma pushIfSegment_emit feature cur out :
  pushIfSegment feature {| currentSegment := cur; finalFeatures := out |}
  = out ++ emit feature [cur].
Proof.
  unfold pushIfSegment, emit, isSegment.
  cbn [currentSegment finalFeatures filter].
  destruct (1 <? List.length cur)%nat; cbn [map]; [reflexivity|].
  rewrite app_nil_r. reflexivity.
Qed.

Lemma emit_cons feature r rs :
  emit feature (r :: rs) = emit feature [r] ++ emit feature rs.
Proof. unfold emit. cbn [filter]. destruct (isSegment r); reflexivity. Qed.

(** The walk, finished by the last push, emits the long runs of the points
    it visits, the first run being glued to the segment in progress. *)
Lemma walk_runs feature rest :
  forall prevPoint s out,
    pushIfSegment feature
      (walk feature prevPoint
         {| currentSegment := s ++ [prevPoint]; finalFeatures := out |} rest)
    = out ++ emit feature (prepend s (runs (prevPoint :: rest))).
Proof.
  induction rest as [|point rest IH]; intros prevPoint s out.
  - cbn [walk runs prepend]. apply pushIfSegment_emit.
  - cbn [walk]. unfold step. destruct (crossing prevPoint point) eqn:E.
    + cbn [currentSegment finalFeatures].
      rewrite (IH point [] _), pushIfSegment_emit.
      rewrite (runs_cons_cross _ _ _ E). cbn [prepend].
      destruct (runs_shape point rest) as [r [rs Hr]]. rewrite Hr.
      cbn [prepend app].
      rewrite (emit_cons _ (s ++ [prevPoint]) ((point :: r) :: rs)).
      rewrite app_assoc. reflexivity.
    + cbn [currentSegment finalFeatures].
      rewrite (IH point (s ++ [prevPoint]) out).
      destruct (runs_shape point rest) as [r [rs Hr]].
      rewrite (runs_cons_join _ _ _ _ _ E Hr), Hr. cbn [prepend].
      rewrite <- app_assoc. reflexivity.
Qed.

Lemma processFeature_segmentsOf acc feature :
  processFeature acc feature = acc ++ segmentsOf feature.
Proof.
  unfold segmentsOf.
  destruct (coordinates (geometry feature)) as [|p0 rest] eqn:Hcs.
  - rewrite (processFeature_nil _ _ Hcs). cbn. rewrite app_nil_r. reflexivity.
  - rewrite (processFeature_cons _ _ _ _ Hcs).
    change [p0] with ([] ++ [p0]).
    rewrite (walk_runs feature rest p0 [] acc).
    destruct (runs_shape p0 rest) as [r [rs Hr]]. rewrite Hr. reflexivity.
Qed.

Lemma fold_processFeature features :
  forall acc,
    fold_left processFeature features acc = acc ++ flat_map segmentsOf features.
Proof.
  induction features as [|f fs IH]; intros acc; cbn.
  - rewrite app_nil_r. reflexivity.
  - rewrite IH, processFeature_segmentsOf, app_assoc. reflexivity.
Qed.

Lemma processPlatesData_flat_map features :
  processPlatesData features = flat_map segmentsOf features.
Proof. unfold processPlatesData. apply fold_processFeature. Qed.


(** *** What the runs are *)

Lemma runs_concat cs : List.concat (runs cs) = cs.
Proof.
  induction cs as [|p tl IH]; [reflexivity|].
  destruct tl as [|q tl]; [reflexivity|].
  rewrite runs_cons2. destruct (crossing p q).
  - cbn [List.concat app]. rewrite IH. reflexivity.
  - destruct (runs (q :: tl)) as [|r rs]; [discriminate IH|].
    cbn [List.concat app] in *. rewrite IH. reflexivity.
Qed.





(** *** Consequences *)

(** X8. Features are segmented independently and in order. *)
Theorem processPlatesData_app (features1 features2 : list Feature) :
  processPlatesData (features1 ++ features2)
  = processPlatesData features1 ++ processPlatesData features2.
Proof. rewrite !processPlatesData_flat_map. apply flat_map_app. Qed.

Lemma segmentsOf_short feature :
  (List.length (coordinates (geometry feature)) <= 1)%nat ->
  segmentsOf feature = [].
Proof.
  unfold segmentsOf. destruct (coordinates (geometry feature)) as [|p [|q tl]];
    cbn [List.length]; intros H; [reflexivity | reflexivity | lia].
Qed.

(** X9. A feature with no point or a single point contributes nothing, wherever
    it stands in the input. *)
Theorem processPlatesData_drops_short_feature
    (features1 features2 : list Feature) (feature : Feature) :
  (List.length (coordinates (geometry feature)) <= 1)%nat ->
  processPlatesData (features1 ++ feature :: features2)
  = processPlatesData (features1 ++ features2).
Proof.
  intros H. rewrite !processPlatesData_flat_map, !flat_map_app.
  cbn [flat_map]. rewrite (segmentsOf_short _ H). reflexivity.
Qed.

Lemma processPlatesData_drops_short_feature_witness :
  processPlatesData ([lineFeature [(10, 0); (20, 5)]]
                       ++ lineFeature [(30, 1)] :: [lineFeature [(5, 5); (6, 6)]])
  = processPlatesData ([lineFeature [(10, 0); (20, 5)]]
                         ++ [lineFeature [(5, 5); (6, 6)]]).
Proof.
  apply processPlatesData_drops_short_feature. cbn. lia.
Defined.

Lemma in_concat_infix {A : Type} (x : list A) (l : list (list A)) :
  In x l -> exists pre post, List.concat l = pre ++ x ++ post.
Proof.
  intros H. apply in_split in H. destruct H as [l1 [l2 ->]].
  exists (List.concat l1), (List.concat l2). rewrite concat_app. reflexivity.
Qed.

(** X10. Every emitted feature is an input feature with its coordinate array
    replaced by a contiguous run of it: the metadata is the source's, and
    no point is invented. *)
Theorem processPlatesData_segment_of_input
    (features : list Feature) (g : Feature) :
  In g (processPlatesData features) ->
  exists (f : Feature) (pre post : list Point),
    In f features /\
    g = withCoordinates f (coordinates (geometry g)) /\
    coordinates (geometry f) = pre ++ coordinates (geometry g) ++ post.
Proof.
  rewrite processPlatesData_flat_map. intros Hin.
  apply in_flat_map in Hin. destruct Hin as [f [Hf Hg]].
  unfold segmentsOf, emit in Hg. apply in_map_iff in Hg.
  destruct Hg as [seg [<- Hseg]]. apply filter_In in Hseg.
  destruct (in_concat_infix _ _ (proj1 Hseg)) as [pre [post Hcs]].
  rewrite runs_concat in Hcs.
  exists f, pre, post. repeat split; [exact Hf | exact Hcs].
Qed.

Lemma processPlatesData_segment_of_input_witness :
  exists (f : Feature) (pre post : list Point),
    In f [lineFeature [(170, 0); (-170, 0); (-160, 0)]] /\
    lineFeature [(-170, 0); (-160, 0)]
    = withCoordinates f
        (coordinates (geometry (lineFeature [(-170, 0); (-160, 0)]))) /\
    coordinates (geometry f)
    = pre ++ coordinates (geometry (lineFeature [(-170, 0); (-160, 0)]))
          ++ post.
Proof.
  apply (processPlatesData_segment_of_input
           [lineFeature [(170, 0); (-170, 0); (-160, 0)]]).
  vm_compute. left. reflexivity.
Defined.

Lemma processPlatesData_fixed features :
  Forall well_segmented features -> processPlatesData features = features.
Proof.
  unfold processPlatesData.
  assert (H : forall acc, Forall well_segmented features ->
                fold_left processFeature features acc = acc ++ features).
  { induction features as [|f fs IH]; intros acc Hall; cbn.
    - rewrite app_nil_r. reflexivity.
    - inversion Hall as [|? ? [Hlen Hs] Hrest]; subst.
      rewrite (processFeature_no_crossings _ _ Hlen)
        by (apply smooth_no_crossings; exact Hs).
      rewrite (IH _ Hrest), <- app_assoc. reflexivity. }
  intros Hall. apply (H [] Hall).
Qed.

(** X11. Segmenting is idempotent: the output of the segmenter is left unchanged
    by a second pass. *)
Theorem processPlatesData_idempotent (features : list Feature) :
  processPlatesData (processPlatesData features) = processPlatesData features.
Proof. apply processPlatesData_fixed, processPlatesData_ok. Qed.





End SegmenterRefinement.

(** ** Loading the plate boundaries: what reaches the globe *)

Section PlatesLoaderMore.
Import Binary64 Normalizer Segmenter SegmenterSpec PlatesLoader.

Lemma runs_of_smooth cs : smooth cs -> cs <> [] -> runs cs = [cs].
Proof.
  induction cs as [|p tl IH]; intros Hs Hne; [congruence|].
  destruct tl as [|q tl]; [reflexivity|].
  destruct Hs as [Hpq Hs]. rewrite runs_cons2.
  apply crossing_false in Hpq. rewrite Hpq.
  rewrite (IH Hs) by discriminate. reflexivity.
Qed.

Lemma segmentsOf_smooth feature :
  smooth (coordinates (geometry feature)) ->
  segmentsOf feature
  = if (1 <? List.length (coordinates (geometry feature)))%nat
    then [feature] else [].
Proof.
  intros Hs. unfold segmentsOf, emit.
  destruct (coordinates (geometry feature)) as [|p tl] eqn:Hcs; [reflexivity|].
  rewrite (runs_of_smooth _ Hs) by discriminate.
  cbn [filter]. unfold isSegment.
  destruct (1 <? List.length (p :: tl))%nat; [|reflexivity].
  cbn [map]. rewrite <- Hcs, withCoordinates_same. reflexivity.
Qed.

(** X13. With latitudes between -90 and 90, as plate boundaries have them,
    [loadData] never cuts a line: the segmenter reads the latitudes, which
    are never more than 180 apart, and returns the normalized features of
    two points or more as they are, antimeridian crossings included. *)
Theorem finalPlatesData_is_a_filter (fuel : nat) (features : list Feature) :
  (forall f p, In f features -> In p (coordinates (geometry f)) ->
               -90 <= snd p /\ snd p <= 90) ->
  finalPlatesData fuel features
  = option_map
      (filter (fun f => (1 <? List.length (coordinates (geometry f)))%nat))
      (normalizedFeatures fuel features).
Proof.
  unfold finalPlatesData, normalizedFeatures. revert features.
  assert (Hgen : forall features normalized,
    (forall f p, In f features -> In p (coordinates (geometry f)) ->
                 -90 <= snd p /\ snd p <= 90) ->
    Array_map (normalizeFeature fuel) features = Some normalized ->
    processPlatesData normalized
    = filter (fun f => (1 <? List.length (coordinates (geometry f)))%nat)
             normalized).
  { induction features as [|f fs IH]; intros normalized Hlat H; cbn in H.
    - injection H as <-. reflexivity.
    - destruct (normalizeFeature fuel f) as [f'|] eqn:Ef; [|discriminate H].
      destruct (Array_map (normalizeFeature fuel) fs) as [fs'|] eqn:Efs;
        [|discriminate H].
      injection H as <-.
      rewrite processPlatesData_flat_map. cbn [flat_map filter].
      rewrite <- processPlatesData_flat_map.
      rewrite (IH fs') by
        (try reflexivity; intros f0 p0 Hf0; apply Hlat; right; exact Hf0).
      rewrite segmentsOf_smooth.
      + destruct (1 <? _)%nat; reflexivity.
      + unfold normalizeFeature in Ef.
        destruct (Array_map (normalizePoint fuel) (coordinates (geometry f)))
          as [coords|] eqn:Ec; [|discriminate Ef].
        injection Ef as <-. cbn.
        apply (normalizePoint_no_crossings fuel _ _
                 (fun p Hp => Hlat f p (or_introl eq_refl) Hp) Ec). }
  intros features Hlat.
  destruct (Array_map (normalizeFeature fuel) features) as [normalized|] eqn:E;
    [|reflexivity].
  cbn [option_map]. f_equal. exact (Hgen _ _ Hlat E).
Qed.

Lemma finalPlatesData_is_a_filter_witness :
  finalPlatesData 1
    [lineFeature [(179, -16); (-179, -17)]; lineFeature [(0, 0)]]
  = option_map
      (filter (fun f => (1 <? List.length (coordinates (geometry f)))%nat))
      (normalizedFeatures 1
         [lineFeature [(179, -16); (-179, -17)]; lineFeature [(0, 0)]]).
Proof.
  apply finalPlatesData_is_a_filter.
  intros f p [<-|[<-|[]]]; cbn.
  - intros [<-|[<-|[]]]; cbn; split; apply Qle_bool_iff; reflexivity.
  - intros [<-|[]]; cbn; split; apply Qle_bool_iff; reflexivity.
Defined.



End PlatesLoaderMore.

(** ** Temporal colour mapper: the gradient *)

Section ColorMapperGradient.
Import ColorMapper.

Variable Date_getTime : string -> option Z.

Lemma Math_round_mono (x y : Q) : x <= y -> (Math_round x <= Math_round y)%Z.
Proof. intros H. apply Qfloor_resp_le. lra. Qed.

Lemma Math_round_Z (n : Z) : Math_round (inject_Z n) = n.
Proof.
  unfold Math_round.
  destruct (Qfloor_bounds (inject_Z n + (1 # 2))) as [H1 H2].
  assert (Hle : (Qfloor (inject_Z n + (1 # 2)) < n + 1)%Z).
  { rewrite Zlt_Qlt, inject_Z_plus. change (inject_Z 1) with 1. lra. }
  assert (Hge : (n < Qfloor (inject_Z n + (1 # 2)) + 1)%Z).
  { rewrite Zlt_Qlt, inject_Z_plus. change (inject_Z 1) with 1. lra. }
  lia.
Qed.

Lemma Math_round_between (lo hi : Z) (x : Q) :
  inject_Z lo <= x -> x <= inject_Z hi -> (lo <= Math_round x <= hi)%Z.
Proof.
  intros Hlo Hhi. split.
  - apply Z.le_trans with (Math_round (inject_Z lo));
      [rewrite Math_round_Z; lia | apply Math_round_mono, Hlo].
  - apply Z.le_trans with (Math_round (inject_Z hi));
      [apply Math_round_mono, Hhi | rewrite Math_round_Z; lia].
Qed.

Lemma window_span_positive (startTime endTime : Z) :
  (startTime < endTime)%Z -> 0 < inject_Z endTime - inject_Z startTime.
Proof. intros H. rewrite Zlt_Qlt in H. lra. Qed.

(** The normalized position grows with the event time. *)
Lemma position_mono (time1 time2 : Q) (startTime endTime : Z) :
  (startTime < endTime)%Z -> time1 <= time2 ->
  (time1 - inject_Z startTime) / (inject_Z endTime - inject_Z startTime)
  <= (time2 - inject_Z startTime) / (inject_Z endTime - inject_Z startTime).
Proof.
  intros Hlt Hle. pose proof (window_span_positive _ _ Hlt) as Hpos.
  unfold Qdiv. apply Qmult_le_compat_r; [lra|].
  apply Qlt_le_weak, Qinv_lt_0_compat, Hpos.
Qed.

Lemma position_at_start (startTime endTime : Z) :
  (startTime < endTime)%Z ->
  (inject_Z startTime - inject_Z startTime)
  / (inject_Z endTime - inject_Z startTime) == 0.
Proof. intros Hlt. field. apply window_span_nonzero, Hlt. Qed.

Lemma position_at_end (startTime endTime : Z) :
  (startTime < endTime)%Z ->
  (inject_Z endTime - inject_Z startTime)
  / (inject_Z endTime - inject_Z startTime) == 1.
Proof. intros Hlt. field. apply window_span_nonzero, Hlt. Qed.

(** X15. Inside the window every channel lies between its two anchors, hence in
    the range 0..255 of a colour channel. *)
Theorem getEarthquakeColorByTime_channels_in_window
    (time : Q) (startDate endDate : string) (startTime endTime : Z) :
  Date_getTime startDate = Some startTime ->
  Date_getTime endDate = Some endTime ->
  (startTime < endTime)%Z ->
  inject_Z startTime <= time -> time <= inject_Z endTime ->
  exists r g b : Z,
    getEarthquakeColorByTime Date_getTime time startDate endDate
    = ("rgba(" ++ Number_toString r ++ ", " ++ Number_toString g ++ ", "
         ++ Number_toString b ++ ", 0.75)")%string /\
    (220 <= r <= 239)%Z /\ (68 <= g <= 210)%Z /\ (68 <= b <= 215)%Z.
Proof.
  intros Hs He Hlt Hlo Hhi.
  set (t := (time - inject_Z startTime)
            / (inject_Z endTime - inject_Z startTime)).
  assert (H0 : 0 <= t).
  { rewrite <- (position_at_start startTime endTime Hlt).
    apply position_mono; assumption. }
  assert (H1 : t <= 1).
  { rewrite <- (position_at_end startTime endTime Hlt).
    apply position_mono; assumption. }
  exists (Math_round (220 + (239 - 220) * t)),
         (Math_round (210 + (68 - 210) * t)),
         (Math_round (215 + (68 - 215) * t)).
  split.
  - apply (getEarthquakeColorByTime_at Date_getTime time t _ _ _ _ Hs He Hlt).
    reflexivity.
  - split; [|split]; apply Math_round_between;
      match goal with |- context [inject_Z ?n] =>
        change (inject_Z n) with (n # 1) end; lra.
Qed.


(** X17. Nothing is clamped: one window length after the end of the window the
    channels leave 0..255 (red 258, green -74, blue -79), and one window
    length before its start green and blue exceed 255. *)
Theorem getEarthquakeColorByTime_not_clamped
    (after before : Q) (startDate endDate : string) (startTime endTime : Z) :
  Date_getTime startDate = Some startTime ->
  Date_getTime endDate = Some endTime ->
  (startTime < endTime)%Z ->
  after == inject_Z endTime + (inject_Z endTime - inject_Z startTime) ->
  before == inject_Z startTime - (inject_Z endTime - inject_Z startTime) ->
  getEarthquakeColorByTime Date_getTime after startDate endDate
  = "rgba(258, -74, -79, 0.75)"%string /\
  getEarthquakeColorByTime Date_getTime before startDate endDate
  = "rgba(201, 352, 362, 0.75)"%string.
Proof.
  intros Hs He Hlt Ha Hb.
  pose proof (window_span_nonzero _ _ Hlt) as Hnz. split.
  - rewrite (getEarthquakeColorByTime_at Date_getTime _ 2 _ _ _ _ Hs He Hlt);
      [reflexivity | rewrite Ha; field; exact Hnz].
  - rewrite (getEarthquakeColorByTime_at Date_getTime _ (-1) _ _ _ _ Hs He Hlt);
      [reflexivity | rewrite Hb; field; exact Hnz].
Qed.

End ColorMapperGradient.

Lemma getEarthquakeColorByTime_channels_in_window_witness :
  exists r g b : Z,
    ColorMapper.getEarthquakeColorByTime ColorMapper.isoDate_getTime
      1704100000000 "2024-01-01" "2024-01-10"
    = ("rgba(" ++ ColorMapper.Number_toString r ++ ", "
         ++ ColorMapper.Number_toString g ++ ", "
         ++ ColorMapper.Number_toString b ++ ", 0.75)")%string /\
    (220 <= r <= 239)%Z /\ (68 <= g <= 210)%Z /\ (68 <= b <= 215)%Z.
Proof.
  apply (getEarthquakeColorByTime_channels_in_window ColorMapper.isoDate_getTime
           1704100000000 "2024-01-01" "2024-01-10"
           1704067200000 1704844800000).
  - reflexivity.
  - reflexivity.
  - lia.
  - apply Qle_bool_iff. reflexivity.
  - apply Qle_bool_iff. reflexivity.
Defined.


Lemma getEarthquakeColorByTime_not_clamped_witness :
  ColorMapper.getEarthquakeColorByTime ColorMapper.isoDate_getTime
    1705622400000 "2024-01-01" "2024-01-10"
  = "rgba(258, -74, -79, 0.75)"%string /\
  ColorMapper.getEarthquakeColorByTime ColorMapper.isoDate_getTime
    1703289600000 "2024-01-01" "2024-01-10"
  = "rgba(201, 352, 362, 0.75)"%string.
Proof.
  apply (getEarthquakeColorByTime_not_clamped ColorMapper.isoDate_getTime
           1705622400000 1703289600000 "2024-01-01" "2024-01-10"
           1704067200000 1704844800000).
  - reflexivity.
  - reflexivity.
  - lia.
  - reflexivity.
  - reflexivity.
Defined.

(** ** How a point is drawn *)

Section PointStyleProperties.
Import GeoTypes PointStyle.

Lemma fourth_power_nonneg (m : Q) : 0 <= m ^ 4.
Proof.
  assert (E : m ^ 4 == (m * m) * (m * m)) by ring.
  rewrite E. apply Qmult_le_0_compat; nra.
Qed.

Lemma square_nonneg (m : Q) : 0 <= m ^ 2.
Proof. assert (E : m ^ 2 == m * m) by ring. rewrite E. nra. Qed.

Lemma square_mono (a b : Q) : 0 <= a -> a <= b -> a ^ 2 <= b ^ 2.
Proof.
  intros Ha Hab.
  assert (Ea : a ^ 2 == a * a) by ring. assert (Eb : b ^ 2 == b * b) by ring.
  rewrite Ea, Eb. nra.
Qed.

Lemma fourth_power_mono (a b : Q) : 0 <= a -> a <= b -> a ^ 4 <= b ^ 4.
Proof.
  intros Ha Hab.
  assert (Ea : a ^ 4 == (a ^ 2) ^ 2) by ring.
  assert (Eb : b ^ 4 == (b ^ 2) ^ 2) by ring.
  rewrite Ea, Eb. apply square_mono; [apply square_nonneg|].
  apply square_mono; assumption.
Qed.

(** X18. No point is drawn below the surface or with a negative radius, whatever
    the magnitude, negative and missing magnitudes included. *)
Theorem point_size_never_negative (d : GeoData) :
  0 <= pointAltitude d /\ 0 <= pointRadius d.
Proof.
  destruct d as [eq|vol]; cbn [pointAltitude pointRadius].
  - split.
    + apply Qmult_le_0_compat; [apply fourth_power_nonneg | discriminate].
    + apply Qmult_le_0_compat; [apply square_nonneg | discriminate].
  - split; discriminate.
Qed.

(** X19. Among earthquakes of non-negative magnitude, a larger magnitude is
    drawn at least as high and at least as wide. *)
Theorem point_size_grows_with_magnitude (eq1 eq2 : Earthquake.t) (m1 m2 : Q) :
  Earthquake.mag eq1 = Some m1 -> Earthquake.mag eq2 = Some m2 ->
  0 <= m1 -> m1 <= m2 ->
  pointAltitude (IsEarthquake eq1) <= pointAltitude (IsEarthquake eq2) /\
  pointRadius (IsEarthquake eq1) <= pointRadius (IsEarthquake eq2).
Proof.
  intros H1 H2 H0 Hle. cbn [pointAltitude pointRadius]. rewrite H1, H2.
  split; (apply Qmult_le_compat_r; [|discriminate]).
  - apply fourth_power_mono; assumption.
  - apply square_mono; assumption.
Qed.

Variable Date_getTime : string -> option Z.

(** X20. An earthquake and a volcano never get the same colour: earthquake
    colours are [rgba(...)] strings, volcano colours are [#] codes. *)
Theorem pointColor_tells_kinds_apart
    (filters : Filters) (eq : Earthquake.t) (vol : Volcano.t) :
  pointColor Date_getTime filters (IsEarthquake eq)
  <> pointColor Date_getTime filters (IsVolcano vol).
Proof.
  cbn [pointColor]. unfold ColorMapper.getEarthquakeColorByTime.
  destruct (Date_getTime (start (dateRange filters))) as [startTime|];
    destruct (Date_getTime (end_ (dateRange filters))) as [endTime|];
    try destruct (endTime <=? startTime)%Z;
    destruct (Volcano.status vol); cbn; discriminate.
Qed.

(** The colour of a volcano tells its status, except that [Holocene] and
    [Dormant] share the default colour. *)
Theorem pointColor_volcano_legend (filters : Filters) (v1 v2 : Volcano.t) :
  pointColor Date_getTime filters (IsVolcano v1)
  = pointColor Date_getTime filters (IsVolcano v2)
  <-> Volcano.status v1 = Volcano.status v2 \/
      (In (Volcano.status v1) [Holocene; Dormant] /\
       In (Volcano.status v2) [Holocene; Dormant]).
Proof.
  cbn [pointColor].
  destruct (Volcano.status v1), (Volcano.status v2); cbn; split;
    try (intros H; discriminate H);
    try (intros _; left; reflexivity);
    try (intros _; right; tauto);
    try reflexivity;
    intros [H|[[H|[H|[]]] [H'|[H'|[]]]]]; discriminate.
Qed.

End PointStyleProperties.

Lemma point_size_grows_with_magnitude_witness :
  PointStyle.pointAltitude
    (GeoTypes.IsEarthquake (sampleQuake "a" "Fiji" (Some 4.5) 0))
  <= PointStyle.pointAltitude
       (GeoTypes.IsEarthquake (sampleQuake "b" "Tonga" (Some 6.1) 0)) /\
  PointStyle.pointRadius
    (GeoTypes.IsEarthquake (sampleQuake "a" "Fiji" (Some 4.5) 0))
  <= PointStyle.pointRadius
       (GeoTypes.IsEarthquake (sampleQuake "b" "Tonga" (Some 6.1) 0)).
Proof.
  apply (point_size_grows_with_magnitude _ _ 4.5 6.1).
  - reflexivity.
  - reflexivity.
  - apply Qle_bool_iff. reflexivity.
  - apply Qle_bool_iff. reflexivity.
Defined.

(** ** The list shown beside the globe *)

Section DataFilterProperties.
Import GeoTypes DataFilter.

(** *** Sorting *)

Section Sorting.
Context {A : Type} (cmp : A -> A -> Q).

Lemma insert_perm (x : A) (l : list A) : Permutation (insert cmp x l) (x :: l).
Proof.
  induction l as [|y l IH]; cbn; [reflexivity|].
  destruct (Qle_bool (cmp x y) 0); [reflexivity|].
  rewrite IH. apply perm_swap.
Qed.

Lemma Array_sort_perm (l : list A) : Permutation (Array_sort cmp l) l.
Proof.
  induction l as [|x l IH]; cbn; [reflexivity|].
  rewrite insert_perm. constructor. exact IH.
Qed.

(** [a] may stand before [b] in a sorted array. *)
Definition before (a b : A) : Prop := cmp a b <= 0.

Hypothesis cmp_total : forall a b, 0 < cmp a b -> cmp b a <= 0.
Hypothesis cmp_trans : forall a b c, cmp a b <= 0 -> cmp b c <= 0 -> cmp a c <= 0.

Lemma insert_sorted (x : A) (l : list A) :
  StronglySorted before l -> StronglySorted before (insert cmp x l).
Proof.
  induction l as [|y l IH]; intros Hs; cbn.
  - constructor; constructor.
  - destruct (Qle_bool (cmp x y) 0) eqn:E.
    + apply Qle_bool_iff in E. constructor; [exact Hs|].
      constructor; [exact E|].
      apply StronglySorted_inv in Hs. destruct Hs as [_ Hall].
      eapply Forall_impl; [|exact Hall].
      intros z Hz. exact (cmp_trans _ _ _ E Hz).
    + apply StronglySorted_inv in Hs. destruct Hs as [Hs Hall].
      constructor; [apply IH, Hs|].
      assert (Hyx : before y x).
      { apply cmp_total, Qnot_le_lt. intros Hle.
        apply Qle_bool_iff in Hle. congruence. }
      eapply Permutation_Forall; [symmetry; apply insert_perm|].
      constructor; assumption.
Qed.

Lemma Array_sort_sorted (l : list A) : StronglySorted before (Array_sort cmp l).
Proof.
  induction l as [|x l IH]; cbn; [constructor|]. apply insert_sorted, IH.
Qed.

End Sorting.

Lemma StronglySorted_weaken {A : Type} (R R' : A -> A -> Prop) (l : list A) :
  (forall a b, R a b -> R' a b) -> StronglySorted R l -> StronglySorted R' l.
Proof.
  intros Himp Hs. induction Hs as [|a l Hs IH Hall]; constructor.
  - exact IH.
  - eapply Forall_impl; [|exact Hall]. intros b. apply Himp.
Qed.

(** *** Searching *)

Lemma includes_empty (s : string) : includes s "" = true.
Proof. destruct s; reflexivity. Qed.

Variable toLowerCase : string -> string.
Variable localeCompare : string -> string -> Z.

(** X21. In earthquake mode the list holds exactly the earthquakes whose place
    contains the search term, case folded on both sides, each once, newest
    first. *)
Theorem filteredData_earthquakes
    (earthquakes : list Earthquake.t) (volcanoes : list Volcano.t)
    (searchTerm : string) (volcanoFilter : VolcanoFilter) :
  exists shown : list Earthquake.t,
    filteredData toLowerCase localeCompare Earthquakes earthquakes volcanoes
      searchTerm volcanoFilter
    = map IsEarthquake shown /\
    Permutation shown
      (filter (fun eq => includes (toLowerCase (Earthquake.place eq))
                                  (toLowerCase searchTerm))
              earthquakes) /\
    StronglySorted (fun a b => Earthquake.time b <= Earthquake.time a) shown.
Proof.
  eexists. split; [reflexivity|]. split; [apply Array_sort_perm|].
  eapply StronglySorted_weaken; [|apply Array_sort_sorted].
  - intros a b H. unfold before in H. lra.
  - intros a b H. lra.
  - intros a b c H1 H2. lra.
Qed.

(** Sorting with a comparator that is only known to be antisymmetric in
    sign still puts every element before its successor. *)
Lemma HdRel_insert {A : Type} (cmp : A -> A -> Q) (y x : A) (l : list A) :
  cmp y x <= 0 -> HdRel (fun a b => cmp a b <= 0) y l ->
  HdRel (fun a b => cmp a b <= 0) y (insert cmp x l).
Proof.
  intros Hyx Hl. destruct l as [|z l]; cbn.
  - constructor. exact Hyx.
  - destruct (Qle_bool (cmp x z) 0); constructor; [exact Hyx|].
    inversion Hl; assumption.
Qed.

Lemma insert_locally_sorted {A : Type} (cmp : A -> A -> Q) (x : A) (l : list A) :
  (forall a b, 0 < cmp a b -> cmp b a <= 0) ->
  Sorted (fun a b => cmp a b <= 0) l ->
  Sorted (fun a b => cmp a b <= 0) (insert cmp x l).
Proof.
  intros Htot. induction l as [|y l IH]; intros Hs; cbn.
  - constructor; constructor.
  - destruct (Qle_bool (cmp x y) 0) eqn:E.
    + apply Qle_bool_iff in E. constructor; [exact Hs|].
      constructor. exact E.
    + inversion Hs as [|? ? Hs' Hhd]; subst.
      constructor; [apply IH, Hs'|].
      apply HdRel_insert; [|exact Hhd].
      apply Htot, Qnot_le_lt. intros Hle.
      apply Qle_bool_iff in Hle. congruence.
Qed.

Lemma Array_sort_locally_sorted {A : Type} (cmp : A -> A -> Q) (l : list A) :
  (forall a b, 0 < cmp a b -> cmp b a <= 0) ->
  Sorted (fun a b => cmp a b <= 0) (Array_sort cmp l).
Proof.
  intros Htot. induction l as [|x l IH]; cbn; [constructor|].
  apply insert_locally_sorted; assumption.
Qed.

Lemma Sorted_weaken {A : Type} (R R' : A -> A -> Prop) (l : list A) :
  (forall a b, R a b -> R' a b) -> Sorted R l -> Sorted R' l.
Proof.
  intros Himp Hs. induction Hs as [|a l Hs IH Hhd]; constructor.
  - exact IH.
  - destruct Hhd; constructor. apply Himp. assumption.
Qed.

(** X22. In volcano mode the list holds exactly the volcanoes that pass the
    three filters (name contains the search term, status and type equal to
    the selected ones or ["All"] selected), each once; when [localeCompare]
    is antisymmetric in sign, as a collation is, every volcano is followed
    by one whose name does not compare below its own. *)
Theorem filteredData_volcanoes
    (earthquakes : list Earthquake.t) (volcanoes : list Volcano.t)
    (searchTerm : string) (volcanoFilter : VolcanoFilter) :
  (forall a b, (0 < localeCompare a b)%Z -> (localeCompare b a <= 0)%Z) ->
  exists shown : list Volcano.t,
    filteredData toLowerCase localeCompare Volcanoes earthquakes volcanoes
      searchTerm volcanoFilter
    = map IsVolcano shown /\
    Permutation shown
      (filter (fun vol =>
                 includes (toLowerCase (Volcano.name vol))
                          (toLowerCase searchTerm)
                 && (String.eqb (status volcanoFilter) "All"
                     || String.eqb (VolcanoStatus_value (Volcano.status vol))
                                   (status volcanoFilter))
                 && (String.eqb (type volcanoFilter) "All"
                     || String.eqb (Volcano.type vol) (type volcanoFilter)))
              volcanoes) /\
    Sorted (fun a b => (localeCompare (Volcano.name a) (Volcano.name b) <= 0)%Z)
           shown.
Proof.
  intros Htot. eexists. split; [reflexivity|]. split; [apply Array_sort_perm|].
  eapply Sorted_weaken; [|apply Array_sort_locally_sorted].
  - intros a b H. cbv beta in H. rewrite Zle_Qle. exact H.
  - intros a b Hab. cbv beta in *. change 0 with (inject_Z 0) in *.
    rewrite <- Zle_Qle. apply Htot. rewrite Zlt_Qlt. exact Hab.
Qed.

Lemma filter_all {A : Type} (f : A -> bool) (l : list A) :
  (forall x, f x = true) -> filter f l = l.
Proof.
  intros H. induction l as [|x l IH]; cbn; [reflexivity|].
  rewrite H, IH. reflexivity.
Qed.

(** X23. With an empty search box, and both volcano filters on ["All"], nothing
    is left out: each list shows every record once. *)
Theorem filteredData_shows_everything_by_default
    (earthquakes : list Earthquake.t) (volcanoes : list Volcano.t)
    (anyFilter : VolcanoFilter) :
  toLowerCase "" = ""%string ->
  exists (shownQuakes : list Earthquake.t) (shownVolcanoes : list Volcano.t),
    filteredData toLowerCase localeCompare Earthquakes earthquakes volcanoes
      "" anyFilter
    = map IsEarthquake shownQuakes /\
    Permutation shownQuakes earthquakes /\
    filteredData toLowerCase localeCompare Volcanoes earthquakes volcanoes
      "" {| type := "All"; status := "All" |}
    = map IsVolcano shownVolcanoes /\
    Permutation shownVolcanoes volcanoes.
Proof.
  intros Hempty. eexists. eexists.
  split; [reflexivity|]. split; [|split; [reflexivity|]].
  - rewrite Array_sort_perm, filter_all; [reflexivity|].
    intros eq. cbv zeta. rewrite Hempty. apply includes_empty.
  - rewrite Array_sort_perm, filter_all; [reflexivity|].
    intros vol. cbv zeta. rewrite Hempty, includes_empty. reflexivity.
Qed.

End DataFilterProperties.

Lemma codeUnitCompare_antisym (a b : string) :
  (0 < DataFilter.codeUnitCompare a b)%Z ->
  (DataFilter.codeUnitCompare b a <= 0)%Z.
Proof.
  unfold DataFilter.codeUnitCompare. rewrite (String.compare_antisym a b).
  destruct (String.compare b a); cbn; lia.
Qed.

Lemma filteredData_volcanoes_witness :
  exists shown : list GeoTypes.Volcano.t,
    DataFilter.filteredData DataFilter.asciiToLowerCase DataFilter.codeUnitCompare
      DataFilter.Volcanoes []
      [sampleVolcano "Etna" "Stratovolcano" GeoTypes.Active;
       sampleVolcano "Agung" "Stratovolcano" GeoTypes.Active;
       sampleVolcano "Kilauea" "Shield" GeoTypes.Active]
      "A" {| DataFilter.type := "All"; DataFilter.status := "Active" |}
    = map GeoTypes.IsVolcano shown /\
    Permutation shown
      (filter (fun vol =>
                 DataFilter.includes
                   (DataFilter.asciiToLowerCase (GeoTypes.Volcano.name vol))
                   (DataFilter.asciiToLowerCase "A")
                 && (String.eqb "Active" "All"
                     || String.eqb
                          (GeoTypes.VolcanoStatus_value
                             (GeoTypes.Volcano.status vol)) "Active")
                 && (String.eqb "All" "All"
                     || String.eqb (GeoTypes.Volcano.type vol) "All"))
              [sampleVolcano "Etna" "Stratovolcano" GeoTypes.Active;
               sampleVolcano "Agung" "Stratovolcano" GeoTypes.Active;
               sampleVolcano "Kilauea" "Shield" GeoTypes.Active]) /\
    Sorted (fun a b =>
              (DataFilter.codeUnitCompare (GeoTypes.Volcano.name a)
                 (GeoTypes.Volcano.name b) <= 0)%Z)
           shown.
Proof.
  apply (filteredData_volcanoes DataFilter.asciiToLowerCase
           DataFilter.codeUnitCompare).
  exact codeUnitCompare_antisym.
Defined.

Lemma filteredData_shows_everything_by_default_witness :
  exists (shownQuakes : list GeoTypes.Earthquake.t)
         (shownVolcanoes : list GeoTypes.Volcano.t),
    DataFilter.filteredData DataFilter.asciiToLowerCase DataFilter.codeUnitCompare
      DataFilter.Earthquakes
      [sampleQuake "a" "Fiji" (Some 4.5) 1704100000000;
       sampleQuake "b" "Tonga" None 1704900000000]
      [sampleVolcano "Etna" "Stratovolcano" GeoTypes.Active]
      "" {| DataFilter.type := "Shield"; DataFilter.status := "Extinct" |}
    = map GeoTypes.IsEarthquake shownQuakes /\
    Permutation shownQuakes
      [sampleQuake "a" "Fiji" (Some 4.5) 1704100000000;
       sampleQuake "b" "Tonga" None 1704900000000] /\
    DataFilter.filteredData DataFilter.asciiToLowerCase DataFilter.codeUnitCompare
      DataFilter.Volcanoes
      [sampleQuake "a" "Fiji" (Some 4.5) 1704100000000;
       sampleQuake "b" "Tonga" None 1704900000000]
      [sampleVolcano "Etna" "Stratovolcano" GeoTypes.Active]
      "" {| DataFilter.type := "All"; DataFilter.status := "All" |}
    = map GeoTypes.IsVolcano shownVolcanoes /\
    Permutation shownVolcanoes
      [sampleVolcano "Etna" "Stratovolcano" GeoTypes.Active].
Proof.
  apply (filteredData_shows_everything_by_default DataFilter.asciiToLowerCase
           DataFilter.codeUnitCompare).
  reflexivity.
Defined.

Example filteredData_sample :
  DataFilter.filteredData DataFilter.asciiToLowerCase DataFilter.codeUnitCompare
    DataFilter.Earthquakes
    [sampleQuake "a" "Fiji region" (Some 4.5) 1704100000000;
     sampleQuake "b" "Tonga" None 1704900000000;
     sampleQuake "c" "south of the FIJI Islands" (Some 5) 1704500000000]
    [] "fiji" {| DataFilter.type := "All"; DataFilter.status := "All" |}
  = map GeoTypes.IsEarthquake
      [sampleQuake "c" "south of the FIJI Islands" (Some 5) 1704500000000;
       sampleQuake "a" "Fiji region" (Some 4.5) 1704100000000].
Proof. reflexivity. Qed.

(** ** Volcano enrichment *)

Section EnrichmentProperties.
Import GeoTypes Enrichment.

Variable API_KEY_set : bool.
Variable generateContent : nat -> list RawVolcano.t -> option (list Details).
Variable removeWhitespace : string -> string.

(** *** Every raw volcano comes back, once and in order *)

Lemma mapi_from_rawPart (f : RawVolcano.t -> nat -> Volcano.t) :
  (forall v i, rawPart (f v i) = v) ->
  forall l index, map rawPart (mapi_from f l index) = l.
Proof.
  intros Hf. induction l as [|x l IH]; intros index; cbn; [reflexivity|].
  rewrite Hf, IH. reflexivity.
Qed.

Lemma mapi_try_from_rawPart (f : RawVolcano.t -> nat -> option Volcano.t) :
  (forall v i w, f v i = Some w -> rawPart w = v) ->
  forall l index ws,
    mapi_try_from f l index = Some ws -> map rawPart ws = l.
Proof.
  intros Hf. induction l as [|x l IH]; intros index ws H; cbn in H.
  - injection H as <-. reflexivity.
  - destruct (f x index) as [y|] eqn:Ey; [|discriminate H].
    destruct (mapi_try_from f l (S index)) as [ys|] eqn:Eys; [|discriminate H].
    injection H as <-. cbn. rewrite (Hf _ _ _ Ey), (IH _ _ Eys). reflexivity.
Qed.

Lemma rawVolcano_eta (v : RawVolcano.t) :
  {| RawVolcano.name := RawVolcano.name v;
     RawVolcano.lat := RawVolcano.lat v;
     RawVolcano.lng := RawVolcano.lng v |} = v.
Proof. destruct v; reflexivity. Qed.

Lemma enrichBatch_rawPart i batch :
  map rawPart (enrichBatch generateContent removeWhitespace i batch) = batch.
Proof.
  assert (Hfb : map rawPart (mapi (fallbackVolcano i) batch) = batch).
  { apply mapi_from_rawPart. intros v k. apply rawVolcano_eta. }
  unfold Enrichment.enrichBatch. cbv zeta.
  destruct (generateContent i batch) as [details|]; [|exact Hfb].
  destruct (negb _); [exact Hfb|].
  destruct (mapi_try_from _ batch 0) as [ws|] eqn:E; [|exact Hfb].
  eapply mapi_try_from_rawPart; [|exact E].
  intros v k w H. unfold enrichedVolcano in H.
  destruct (nth_error details k); [|discriminate H].
  injection H as <-. apply rawVolcano_eta.
Qed.

Lemma slice_then_rest {A : Type} (l : list A) (i n : nat) :
  slice l i (i + n) ++ skipn (i + n) l = skipn i l.
Proof.
  unfold slice. replace (i + n - i)%nat with n by lia.
  rewrite (Nat.add_comm i n), <- skipn_skipn. apply firstn_skipn.
Qed.

Lemma enrichLoop_rawPart rawVolcanoes i all :
  map rawPart (enrichLoop generateContent removeWhitespace rawVolcanoes i all)
  = map rawPart all ++ skipn i rawVolcanoes.
Proof.
  funelim (Enrichment.enrichLoop generateContent removeWhitespace
             rawVolcanoes i all).
  - match goal with IH : map rawPart _ = _ |- _ => rewrite IH end.
    rewrite map_app, enrichBatch_rawPart, <- app_assoc, slice_then_rest.
    reflexivity.
  - match goal with E : (_ <? _)%nat = false |- _ =>
      rewrite (skipn_all2 _ (proj1 (Nat.ltb_ge _ _) E)) end.
    rewrite app_nil_r. reflexivity.
Qed.

(** X26. Whatever the service answers, and with or without a key, the result
    lists exactly the raw volcanoes, once each and in their order, with
    their names and positions unchanged. *)
Theorem enrichVolcanoData_keeps_every_volcano (rawVolcanoes : list RawVolcano.t) :
  map rawPart
    (enrichVolcanoData API_KEY_set generateContent removeWhitespace rawVolcanoes)
  = rawVolcanoes.
Proof.
  unfold Enrichment.enrichVolcanoData. destruct (negb API_KEY_set).
  - apply mapi_from_rawPart. intros v k. apply rawVolcano_eta.
  - rewrite enrichLoop_rawPart. reflexivity.
Qed.

(** *** The identifiers are pairwise distinct *)

Lemma string_of_uint_digits (d : Decimal.uint) :
  allDigits (NilEmpty.string_of_uint d).
Proof.
  induction d; cbn [NilEmpty.string_of_uint allDigits];
    try exact I; (split; [unfold digitChar; cbn; tauto | assumption]).
Qed.

Lemma index_toString_digits (n : nat) :
  exists c rest,
    index_toString n = String c rest /\ digitChar c /\ allDigits rest.
Proof.
  unfold index_toString, ColorMapper.Number_toString.
  destruct (Z.of_nat n) as [|p|p] eqn:E; [| |lia].
  - exists "0"%char, ""%string. cbn. unfold digitChar. cbn. tauto.
  - cbn [Z.to_int NilZero.string_of_int].
    pose proof (Unsigned.to_uint_nonnil p) as Hnn.
    pose proof (string_of_uint_digits (Pos.to_uint p)) as Hd.
    unfold NilZero.string_of_uint.
    destruct (Pos.to_uint p) eqn:Eu; [congruence| ..];
      cbn [NilEmpty.string_of_uint] in *; destruct Hd as [Hc Hrest];
      eexists; eexists; (split; [reflexivity | split; assumption]).
Qed.

Lemma Number_toString_inj (z1 z2 : Z) :
  ColorMapper.Number_toString z1 = ColorMapper.Number_toString z2 -> z1 = z2.
Proof.
  unfold ColorMapper.Number_toString. intros H.
  assert (Hnn : forall z, Z.to_int z <> Decimal.Pos Decimal.Nil /\
                          Z.to_int z <> Decimal.Neg Decimal.Nil).
  { intros [|p|p]; cbn; split; try discriminate;
      intros Hp; injection Hp as Hp; exact (Unsigned.to_uint_nonnil p Hp). }
  apply DecimalZ.to_int_inj.
  pose proof (NilZero.isi _ (proj1 (Hnn z1)) (proj2 (Hnn z1))) as H1.
  pose proof (NilZero.isi _ (proj1 (Hnn z2)) (proj2 (Hnn z2))) as H2.
  rewrite H in H1. rewrite H1 in H2. injection H2 as H2. exact H2.
Qed.

Lemma index_toString_inj (n m : nat) :
  index_toString n = index_toString m -> n = m.
Proof.
  unfold index_toString. intros H. apply Number_toString_inj in H. lia.
Qed.

(** The digits before the first underscore are determined by the string. *)
Lemma digits_until_underscore (a b x y : string) :
  allDigits a -> allDigits b ->
  (a ++ String "_" x)%string = (b ++ String "_" y)%string -> a = b.
Proof.
  revert b. induction a as [|c a IH]; intros b Ha Hb H.
  - destruct b as [|c' b]; [reflexivity|].
    cbn in H. injection H as Hc _. subst c'.
    destruct Hb as [Hd _]. unfold digitChar in Hd. cbn in Hd.
    repeat (destruct Hd as [Hd|Hd]; [discriminate Hd|]). contradiction.
  - destruct b as [|c' b].
    + cbn in H. injection H as Hc _. subst c.
      destruct Ha as [Hd _]. unfold digitChar in Hd. cbn in Hd.
      repeat (destruct Hd as [Hd|Hd]; [discriminate Hd|]). contradiction.
    + cbn in H. injection H as Hc H. subst c'.
      rewrite (IH b (proj2 Ha) (proj2 Hb) H). reflexivity.
Qed.

Lemma not_digit (c : ascii) :
  digitChar c -> c <> "r"%char /\ c <> "f"%char.
Proof.
  unfold digitChar. cbn. intros H.
  repeat (destruct H as [H|H]; [subst c; split; discriminate|]). contradiction.
Qed.

Lemma idFor_index (k k' : nat) (s : string) : idFor k s -> idFor k' s -> k = k'.
Proof.
  destruct (index_toString_digits k) as [c [rest [Ek [Hc Hrest]]]].
  destruct (index_toString_digits k') as [c' [rest' [Ek' [Hc' Hrest']]]].
  pose proof (not_digit _ Hc) as [Hr Hf].
  pose proof (not_digit _ Hc') as [Hr' Hf'].
  intros Hk Hk'.
  destruct Hk as [H|[H|[x H]]]; destruct Hk' as [H'|[H'|[x' H']]];
    rewrite H in H'; clear H.
  - cbn [append] in H'. injection H' as H'. apply index_toString_inj, H'.
  - cbn [append] in H'. discriminate H'.
  - rewrite Ek' in H'. cbn [append] in H'. injection H' as Hc'' _. congruence.
  - cbn [append] in H'. discriminate H'.
  - cbn [append] in H'. injection H' as H'. apply index_toString_inj, H'.
  - rewrite Ek' in H'. cbn [append] in H'. injection H' as Hc'' _. congruence.
  - rewrite Ek in H'. cbn [append] in H'. injection H' as Hc'' _. congruence.
  - rewrite Ek in H'. cbn [append] in H'. injection H' as Hc'' _. congruence.
  - cbn [append] in H'. injection H' as H'. apply index_toString_inj.
    apply (digits_until_underscore _ _ x x').
    + rewrite Ek. split; assumption.
    + rewrite Ek'. split; assumption.
    + exact H'.
Qed.

Lemma idsFrom_app k l1 l2 :
  idsFrom k l1 -> idsFrom (k + List.length l1) l2 -> idsFrom k (l1 ++ l2).
Proof.
  revert k. induction l1 as [|s l1 IH]; intros k H1 H2; cbn in *.
  - rewrite Nat.add_0_r in H2. exact H2.
  - destruct H1 as [Hs H1]. split; [exact Hs|].
    apply IH; [exact H1|]. rewrite Nat.add_succ_comm. exact H2.
Qed.

Lemma idsFrom_above k ids s :
  idsFrom k ids -> In s ids -> exists j, (k <= j)%nat /\ idFor j s.
Proof.
  revert k. induction ids as [|s0 ids IH]; intros k H Hin; [destruct Hin|].
  destruct H as [Hs H]. destruct Hin as [<-|Hin].
  - exists k. split; [lia | exact Hs].
  - destruct (IH _ H Hin) as [j [Hj Hid]]. exists j. split; [lia | exact Hid].
Qed.

Lemma idsFrom_NoDup k ids : idsFrom k ids -> NoDup ids.
Proof.
  revert k. induction ids as [|s ids IH]; intros k H; constructor.
  - destruct H as [Hs H]. intros Hin.
    destruct (idsFrom_above _ _ _ H Hin) as [j [Hj Hid]].
    pose proof (idFor_index _ _ _ Hs Hid). lia.
  - exact (IH _ (proj2 H)).
Qed.

Lemma mapi_from_ids (f : RawVolcano.t -> nat -> Volcano.t) (base : nat) :
  (forall v i, idFor (base + i) (Volcano.id (f v i))) ->
  forall l index,
    idsFrom (base + index) (map Volcano.id (mapi_from f l index)).
Proof.
  intros Hf. induction l as [|x l IH]; intros index; cbn; [exact I|].
  split; [apply Hf|]. rewrite <- Nat.add_succ_r. apply IH.
Qed.

Lemma mapi_try_from_ids (f : RawVolcano.t -> nat -> option Volcano.t)
    (base : nat) :
  (forall v i w, f v i = Some w -> idFor (base + i) (Volcano.id w)) ->
  forall l index ws,
    mapi_try_from f l index = Some ws ->
    idsFrom (base + index) (map Volcano.id ws).
Proof.
  intros Hf. induction l as [|x l IH]; intros index ws H; cbn in H.
  - injection H as <-. exact I.
  - destruct (f x index) as [y|] eqn:Ey; [|discriminate H].
    destruct (mapi_try_from f l (S index)) as [ys|] eqn:Eys; [|discriminate H].
    injection H as <-. cbn. split; [exact (Hf _ _ _ Ey)|].
    rewrite <- Nat.add_succ_r. exact (IH _ _ Eys).
Qed.

Lemma enrichBatch_ids i batch :
  idsFrom i (map Volcano.id
               (enrichBatch generateContent removeWhitespace i batch)).
Proof.
  assert (Hfb : idsFrom i (map Volcano.id (mapi (fallbackVolcano i) batch))).
  { rewrite <- (Nat.add_0_r i) at 1. apply mapi_from_ids.
    intros v k. right. left. reflexivity. }
  unfold Enrichment.enrichBatch. cbv zeta.
  destruct (generateContent i batch) as [details|]; [|exact Hfb].
  destruct (negb _); [exact Hfb|].
  destruct (mapi_try_from _ batch 0) as [ws|] eqn:E; [|exact Hfb].
  rewrite <- (Nat.add_0_r i) at 1.
  eapply mapi_try_from_ids; [|exact E].
  intros v k w H. unfold enrichedVolcano in H.
  destruct (nth_error details k); [|discriminate H].
  injection H as <-. right. right. eexists. reflexivity.
Qed.

Lemma length_rawPart (l : list Volcano.t) (raws : list RawVolcano.t) :
  map rawPart l = raws -> List.length l = List.length raws.
Proof. intros <-. rewrite length_map. reflexivity. Qed.

Lemma enrichLoop_ids rawVolcanoes i all :
  exists fresh,
    enrichLoop generateContent removeWhitespace rawVolcanoes i all
    = all ++ fresh /\
    idsFrom i (map Volcano.id fresh).
Proof.
  funelim (Enrichment.enrichLoop generateContent removeWhitespace
             rawVolcanoes i all).
  - match goal with IH : exists _, _ |- _ => destruct IH as [fresh [Heq Hids]] end.
    exists (enrichBatch generateContent removeWhitespace i
              (slice rawVolcanoes i (i + BATCH_SIZE)) ++ fresh).
    split; [rewrite Heq, <- app_assoc; reflexivity|].
    rewrite map_app. apply idsFrom_app; [apply enrichBatch_ids|].
    rewrite length_map.
    rewrite (length_rawPart _ _ (enrichBatch_rawPart i _)).
    (* A short batch is the last one: nothing follows it. *)
    assert (Hfresh : map rawPart fresh = skipn (i + BATCH_SIZE) rawVolcanoes).
    { pose proof (enrichLoop_rawPart rawVolcanoes (i + BATCH_SIZE)
                    (allEnrichedVolcanoes
                       ++ enrichBatch generateContent removeWhitespace i
                            (slice rawVolcanoes i (i + BATCH_SIZE)))) as Hr.
      rewrite Heq, map_app in Hr. apply app_inv_head in Hr. exact Hr. }
    unfold slice. rewrite length_firstn, length_skipn.
    replace (i + BATCH_SIZE - i)%nat with BATCH_SIZE by lia.
    destruct (Nat.le_gt_cases BATCH_SIZE (List.length rawVolcanoes - i))
      as [Hfull|Hshort].
    + rewrite Nat.min_l by exact Hfull. exact Hids.
    + assert (Hnil : fresh = []).
      { apply length_rawPart in Hfresh. rewrite length_skipn in Hfresh.
        destruct fresh; [reflexivity | cbn in Hfresh; lia]. }
      rewrite Hnil. exact I.
  - exists []. split; [rewrite app_nil_r; reflexivity | exact I].
Qed.

(** X27. The identifiers given to the volcanoes of one call are pairwise
    distinct, whatever the service answers and whatever the names are. *)
Theorem enrichVolcanoData_distinct_ids (rawVolcanoes : list RawVolcano.t) :
  NoDup (map Volcano.id
           (enrichVolcanoData API_KEY_set generateContent removeWhitespace
              rawVolcanoes)).
Proof.
  apply (idsFrom_NoDup 0). unfold Enrichment.enrichVolcanoData.
  destruct (negb API_KEY_set).
  - apply (mapi_from_ids disabledVolcano 0).
    intros v k. left. reflexivity.
  - destruct (enrichLoop_ids rawVolcanoes 0 []) as [fresh [Heq Hids]].
    rewrite Heq. exact Hids.
Qed.

End EnrichmentProperties.

(** ** Sorting is stable *)

Section Stability.
Import DataFilter.
Context {A : Type} (key : A -> Q).

(** Sorting by decreasing key leaves the elements of equal key in their
    input order. *)
Lemma insert_stable (t : Q) (x : A) (l : list A) :
  filter (fun a => Qeq_bool (key a) t)
         (insert (fun a b => key b - key a) x l)
  = filter (fun a => Qeq_bool (key a) t) (x :: l).
Proof.
  induction l as [|y l IH]; [reflexivity|].
  cbn [insert]. destruct (Qle_bool (key y - key x) 0) eqn:E; [reflexivity|].
  cbn [filter] in *. rewrite IH.
  destruct (Qeq_bool (key x) t) eqn:Ex; [|reflexivity].
  destruct (Qeq_bool (key y) t) eqn:Ey; [|reflexivity].
  apply Qeq_bool_iff in Ex. apply Qeq_bool_iff in Ey.
  assert (Hle : Qle_bool (key y - key x) 0 = true)
    by (apply Qle_bool_iff; lra).
  congruence.
Qed.

Lemma Array_sort_stable (t : Q) (l : list A) :
  filter (fun a => Qeq_bool (key a) t)
         (Array_sort (fun a b => key b - key a) l)
  = filter (fun a => Qeq_bool (key a) t) l.
Proof.
  induction l as [|x l IH]; [reflexivity|].
  cbn [Array_sort fold_right]. fold (Array_sort (fun a b => key b - key a) l).
  rewrite insert_stable. cbn [filter]. rewrite IH. reflexivity.
Qed.

End Stability.

Section FeedProperties.
Import GeoTypes EarthquakeFeed DataFilter.

(** X24. The feed gives one earthquake per feature, strongest first, a missing
    magnitude counting as 0. *)
Theorem toEarthquakes_strongest_first (features : list UsgsFeature) :
  List.length (toEarthquakes features) = List.length features /\
  Permutation (map Earthquake.id (toEarthquakes features))
              (map id features) /\
  StronglySorted
    (fun a b => numberOf (Earthquake.mag b) <= numberOf (Earthquake.mag a))
    (toEarthquakes features).
Proof.
  unfold toEarthquakes. repeat split.
  - rewrite (Permutation_length (Array_sort_perm _ _)), length_map.
    reflexivity.
  - rewrite (Array_sort_perm _ _), map_map.
    apply Permutation_refl'. apply map_ext.
    intros [i [[c0 c1] c2] pr]. reflexivity.
  - eapply StronglySorted_weaken; [|apply Array_sort_sorted].
    + intros a b H. unfold before in H. lra.
    + intros a b H. lra.
    + intros a b c H1 H2. lra.
Qed.

Variable toLowerCase : string -> string.
Variable localeCompare : string -> string -> Z.

Lemma StronglySorted_filter {A : Type} (R : A -> A -> Prop) (f : A -> bool)
    (l : list A) :
  StronglySorted R l -> StronglySorted R (filter f l).
Proof.
  intros Hs. induction Hs as [|a l Hs IH Hall]; cbn; [constructor|].
  destruct (f a); [|exact IH]. constructor; [exact IH|].
  rewrite Forall_forall in *. intros b Hb. apply filter_In in Hb.
  apply Hall, Hb.
Qed.

(** X25. The list of earthquakes is sorted by time only, and the sort is stable:
    fed with the earthquakes as the feed delivers them, it shows the
    earthquakes recorded at the same time strongest first. *)
Theorem filteredData_ties_strongest_first
    (features : list UsgsFeature) (volcanoes : list Volcano.t)
    (searchTerm : string) (volcanoFilter : VolcanoFilter) (t : Q) :
  exists shown : list Earthquake.t,
    filteredData toLowerCase localeCompare Earthquakes
      (toEarthquakes features) volcanoes searchTerm volcanoFilter
    = map IsEarthquake shown /\
    StronglySorted
      (fun a b => numberOf (Earthquake.mag b) <= numberOf (Earthquake.mag a))
      (filter (fun eq => Qeq_bool (Earthquake.time eq) t) shown).
Proof.
  eexists. split; [reflexivity|].
  rewrite (Array_sort_stable Earthquake.time).
  apply StronglySorted_filter, StronglySorted_filter.
  unfold toEarthquakes.
  eapply StronglySorted_weaken; [|apply Array_sort_sorted].
  - intros a b H. unfold before in H. lra.
  - intros a b H. lra.
  - intros a b c H1 H2. lra.
Qed.

End FeedProperties.

(** ** Worked examples of the enrichment *)

Example enrichVolcanoData_samples :
  map (fun v => (GeoTypes.Volcano.id v, GeoTypes.Volcano.type v,
                 GeoTypes.Volcano.status v))
      (Enrichment.enrichVolcanoData true sampleService dropSpaces
         [sampleRaw "Mount Etna"; sampleRaw "Kilauea"])
  = [("v_0_MountEtna", "Stratovolcano", GeoTypes.Active);
     ("v_1_Kilauea", "Shield", GeoTypes.Inactive)]%string /\
  map (fun v => (GeoTypes.Volcano.id v, GeoTypes.Volcano.type v))
      (Enrichment.enrichVolcanoData true sampleService dropSpaces
         [sampleRaw "Agung"])
  = [("v_fallback_0", "Enrichment Failed")]%string /\
  map GeoTypes.Volcano.id
      (Enrichment.enrichVolcanoData false sampleService dropSpaces
         [sampleRaw "Agung"; sampleRaw "Etna"])
  = ["v_raw_0"; "v_raw_1"]%string /\
  map GeoTypes.Volcano.id
      (Enrichment.enrichVolcanoData true sampleService dropSpaces
         (repeat (sampleRaw "X") 52))
  = (map (fun k => ("v_fallback_" ++ Enrichment.index_toString k)%string)
         (seq 0 50)
     ++ ["v_50_X"%string; "v_51_X"%string])%list.
Proof. repeat split; vm_compute; reflexivity. Qed.
